(** * v0-cli: credential store, client factory, file collector and command
      handlers, embedded from [src/config.ts] (the client factory and the
      two JSON stores), [src/files.ts] and [src/index.ts].

    Strings are JavaScript strings, i.e. sequences of UTF-16 code units;
    [JSON.stringify] and [JSON.parse] are modelled on them, number
    literals apart; the two stores hold the text a later read returns;
    handlers are functions in a small state-and-outcome monad over the
    process state, with the environment, the terminal, the directory
    tree and the remote service as a parameter. *)

From Stdlib Require Import List NArith ZArith Bool Ascii String Lia.
Import ListNotations.

Set Implicit Arguments.
Set Warnings "-register-all".

Local Open Scope N_scope.

(* ------------------------------------------------------------------ *)
(** ** JavaScript strings *)

(** A code unit. JavaScript keeps them below [65536]; nothing below relies
    on that bound. *)
Definition code_unit := N.

Definition jsstring := list code_unit.

(** A string literal of the source. *)
Definition lit (s : string) : jsstring :=
  map N_of_ascii (list_ascii_of_string s).

Fixpoint jsstring_eqb (a b : jsstring) : bool :=
  match a, b with
  | [], [] => true
  | x :: a', y :: b' => (x =? y) && jsstring_eqb a' b'
  | _, _ => false
  end.

(** [s.startsWith(p)]. *)
Fixpoint starts_with (p s : jsstring) : bool :=
  match p, s with
  | [], _ => true
  | x :: p', y :: s' => (x =? y) && starts_with p' s'
  | _ :: _, [] => false
  end.

(** [s.includes(p)]: [p] occurs in [s] as a substring. *)
Fixpoint includes (s p : jsstring) : bool :=
  starts_with p s ||
  match s with
  | [] => false
  | _ :: s' => includes s' p
  end.

(** WhiteSpace and LineTerminator code points, the ones [trim] strips. *)
Definition is_trim_space (c : code_unit) : bool :=
  (c =? 9) || (c =? 10) || (c =? 11) || (c =? 12) || (c =? 13) ||
  (c =? 32) || (c =? 160) || (c =? 5760) ||
  ((8192 <=? c) && (c <=? 8202)) ||
  (c =? 8232) || (c =? 8233) || (c =? 8239) || (c =? 8287) ||
  (c =? 12288) || (c =? 65279).

Fixpoint trim_start (s : jsstring) : jsstring :=
  match s with
  | c :: s' => if is_trim_space c then trim_start s' else s
  | [] => []
  end.

(** [s.trim()]. *)
Definition trim (s : jsstring) : jsstring :=
  rev (trim_start (rev (trim_start s))).

(** Truthiness of a string: every string but the empty one. *)
Definition nonempty (s : jsstring) : bool :=
  match s with [] => false | _ :: _ => true end.

(* ------------------------------------------------------------------ *)
(** ** JSON values *)

(** The values [JSON.parse] builds, number literals apart (see
    [parse_result]). An object lists its members in property
    enumeration order. *)
Inductive json : Type :=
| JNull
| JBool (b : bool)
| JString (s : jsstring)
| JArray (items : list json)
| JObject (members : list (jsstring * json)).

Definition fields := list (jsstring * json).

Section json_induction.
Variable P : json -> Prop.
Hypothesis Hnull : P JNull.
Hypothesis Hbool : forall b, P (JBool b).
Hypothesis Hstring : forall s, P (JString s).
Hypothesis Harray : forall items, Forall P items -> P (JArray items).
Hypothesis Hobject :
  forall members, Forall (fun kv => P (snd kv)) members -> P (JObject members).

Fixpoint json_nested_ind (v : json) : P v :=
  match v with
  | JNull => Hnull
  | JBool b => Hbool b
  | JString s => Hstring s
  | JArray items =>
      Harray ((fix go (l : list json) : Forall P l :=
                 match l with
                 | [] => Forall_nil _
                 | x :: l' => Forall_cons _ (json_nested_ind x) (go l')
                 end) items)
  | JObject members =>
      Hobject ((fix go (l : fields) : Forall (fun kv => P (snd kv)) l :=
                  match l with
                  | [] => Forall_nil _
                  | kv :: l' =>
                      Forall_cons (P := fun kv => P (snd kv)) kv
                        (json_nested_ind (snd kv)) (go l')
                  end) members)
  end.
End json_induction.

(** Own-property lookup on an object. *)
Fixpoint obj_get (o : fields) (k : jsstring) : option json :=
  match o with
  | [] => None
  | (k', v) :: o' => if jsstring_eqb k' k then Some v else obj_get o' k
  end.

(** [delete o[k]]. *)
Fixpoint obj_delete (o : fields) (k : jsstring) : fields :=
  match o with
  | [] => []
  | (k', v) :: o' =>
      if jsstring_eqb k' k then obj_delete o' k else (k', v) :: obj_delete o' k
  end.

Definition has_key (o : fields) (k : jsstring) : bool :=
  match obj_get o k with Some _ => true | None => false end.

(** *** Property order

    Own properties enumerate with the array-index keys first, in
    ascending numeric order, and the other keys after them in creation
    order; defining a property keeps an existing key where it is. *)

Definition is_digit (c : code_unit) : bool := (48 <=? c) && (c <=? 57).

Fixpoint digits_value (acc : N) (s : jsstring) : option N :=
  match s with
  | [] => Some acc
  | c :: s' =>
      if is_digit c then digits_value (acc * 10 + (c - 48)) s' else None
  end.

(** The array index a key denotes: a canonical decimal numeral below
    [2^32 - 1]. *)
Definition array_index (k : jsstring) : option N :=
  match k with
  | [] => None
  | c :: rest =>
      if (c =? 48) && nonempty rest then None
      else match digits_value 0 k with
           | Some n => if n <? 4294967295 then Some n else None
           | None => None
           end
  end.

Definition key_le (k1 k2 : jsstring) : bool :=
  match array_index k1, array_index k2 with
  | Some i, Some j => i <=? j
  | Some _, None => true
  | None, None => true
  | None, Some _ => false
  end.

Fixpoint obj_replace (o : fields) (k : jsstring) (v : json) : fields :=
  match o with
  | [] => []
  | (k', v') :: o' =>
      if jsstring_eqb k' k then (k', v) :: o'
      else (k', v') :: obj_replace o' k v
  end.

Fixpoint obj_insert_index (i : N) (o : fields) (k : jsstring) (v : json)
  : fields :=
  match o with
  | [] => [(k, v)]
  | (k', v') :: o' =>
      match array_index k' with
      | Some j =>
          if j <=? i then (k', v') :: obj_insert_index i o' k v
          else (k, v) :: o
      | None => (k, v) :: o
      end
  end.

(** [o[k] = v] on an ordinary object (CreateDataProperty / Set). *)
Definition obj_set (o : fields) (k : jsstring) (v : json) : fields :=
  if has_key o k then obj_replace o k v
  else match array_index k with
       | Some i => obj_insert_index i o k v
       | None => o ++ [(k, v)]
       end.

(** The member lists that are enumeration orders of an object: keys
    pairwise distinct, array indices first and ascending. *)
Fixpoint canonical_order (o : fields) : bool :=
  match o with
  | [] => true
  | (k, _) :: o' =>
      forallb (fun kv => key_le k (fst kv)) o'
      && negb (has_key o' k)
      && canonical_order o'
  end.

(** Every object inside [v] lists its members in enumeration order. *)
Fixpoint well_formed (v : json) : bool :=
  match v with
  | JArray items => forallb well_formed items
  | JObject members =>
      canonical_order members
      && forallb (fun kv => well_formed (snd kv)) members
  | _ => true
  end.

(* ------------------------------------------------------------------ *)
(** ** [JSON.stringify(value, null, 2)] *)

Definition hex_digit (d : N) : code_unit :=
  if d <? 10 then 48 + d else 87 + d.

(** UnicodeEscape: a backslash, [u] and four lower-case hex digits. *)
Definition unicode_escape (c : code_unit) : jsstring :=
  [92; 117; hex_digit ((c / 4096) mod 16); hex_digit ((c / 256) mod 16);
   hex_digit ((c / 16) mod 16); hex_digit (c mod 16)].

Definition is_lead (c : code_unit) : bool := (55296 <=? c) && (c <=? 56319).
Definition is_trail (c : code_unit) : bool := (56320 <=? c) && (c <=? 57343).

(** One code point outside the surrogate range: the short escapes for
    backspace, tab, line feed, form feed, carriage return, the double
    quote and the backslash; the long one for the other control
    characters; itself otherwise. *)
Definition quote_unit (c : code_unit) : jsstring :=
  if c =? 8 then [92; 98]
  else if c =? 9 then [92; 116]
  else if c =? 10 then [92; 110]
  else if c =? 12 then [92; 102]
  else if c =? 13 then [92; 114]
  else if c =? 34 then [92; 34]
  else if c =? 92 then [92; 92]
  else if c <? 32 then unicode_escape c
  else [c].

(** The body of QuoteJSONString, code point by code point: a surrogate
    pair goes out as it is, a lone surrogate as an escape. *)
Fixpoint quote_body (s : jsstring) : jsstring :=
  match s with
  | [] => []
  | c :: rest =>
      if is_lead c then
        match rest with
        | d :: rest' =>
            if is_trail d then c :: d :: quote_body rest'
            else unicode_escape c ++ quote_body rest
        | [] => unicode_escape c
        end
      else if is_trail c then unicode_escape c ++ quote_body rest
      else quote_unit c ++ quote_body rest
  end.

Definition quote (s : jsstring) : jsstring := [34] ++ quote_body s ++ [34].

Fixpoint join (sep : jsstring) (parts : list jsstring) : jsstring :=
  match parts with
  | [] => []
  | [p] => p
  | p :: parts' => p ++ sep ++ join sep parts'
  end.

Definition gap : jsstring := lit "  ".

(** SerializeJSONProperty with the current indentation. *)
Fixpoint serialize (indent : jsstring) (v : json) : jsstring :=
  match v with
  | JNull => lit "null"
  | JBool true => lit "true"
  | JBool false => lit "false"
  | JString s => quote s
  | JArray [] => lit "[]"
  | JArray items =>
      let stepback := indent in
      let indent := indent ++ gap in
      let separator := [44; 10] ++ indent in
      [91; 10] ++ indent ++ join separator (map (serialize indent) items)
        ++ [10] ++ stepback ++ [93]
  | JObject [] => lit "{}"
  | JObject members =>
      let stepback := indent in
      let indent := indent ++ gap in
      let separator := [44; 10] ++ indent in
      [123; 10] ++ indent
        ++ join separator
             (map (fun kv => quote (fst kv) ++ [58; 32] ++ serialize indent (snd kv))
                members)
        ++ [10] ++ stepback ++ [125]
  end.

Definition JSON_stringify (v : json) : jsstring := serialize [] v.

(* ------------------------------------------------------------------ *)
(** ** [JSON.parse(text)] *)

(** What [JSON.parse] does with a text: it returns a value or throws a
    SyntaxError. Number literals are outside this model, and a text with
    one is reported as such, never as parsed or as rejected. *)
Inductive parse_result : Type :=
| Parsed (v : json)
| SyntaxError
| NumberLiteral.

Inductive token : Type :=
| TLBrace | TRBrace | TLBracket | TRBracket | TColon | TComma
| TString (s : jsstring)
| TTrue | TFalse | TNull.

(** *** Tokens *)

Inductive lex_mode : Type :=
| LNormal
| LWord (expect : jsstring) (t : token)
| LStr (acc : jsstring)
| LEsc (acc : jsstring)
| LUni (acc : jsstring) (remaining : nat) (value : N).

Inductive lex_state : Type :=
| LRun (m : lex_mode) (out : list token)
| LSyntaxError
| LNumber.

(** Code units are written by number: 9 tab, 10 line feed, 13 carriage
    return, 32 space, 34 double quote, 44 comma, 45 minus, 47 slash,
    58 colon, 91 and 93 the brackets, 92 backslash, 123 and 125 the
    braces; 98 [b], 102 [f], 110 [n], 114 [r], 116 [t], 117 [u]. *)
Definition is_json_ws (c : code_unit) : bool :=
  (c =? 32) || (c =? 9) || (c =? 10) || (c =? 13).

Definition hex_value (c : code_unit) : option N :=
  if (48 <=? c) && (c <=? 57) then Some (c - 48)
  else if (97 <=? c) && (c <=? 102) then Some (c - 87)
  else if (65 <=? c) && (c <=? 70) then Some (c - 55)
  else None.

Definition lex_normal (out : list token) (c : code_unit) : lex_state :=
  if is_json_ws c then LRun LNormal out
  else if c =? 123 then LRun LNormal (TLBrace :: out)
  else if c =? 125 then LRun LNormal (TRBrace :: out)
  else if c =? 91 then LRun LNormal (TLBracket :: out)
  else if c =? 93 then LRun LNormal (TRBracket :: out)
  else if c =? 58 then LRun LNormal (TColon :: out)
  else if c =? 44 then LRun LNormal (TComma :: out)
  else if c =? 34 then LRun (LStr []) out
  else if c =? 116 then LRun (LWord (lit "rue") TTrue) out
  else if c =? 102 then LRun (LWord (lit "alse") TFalse) out
  else if c =? 110 then LRun (LWord (lit "ull") TNull) out
  else if (c =? 45) || is_digit c then LNumber
  else LSyntaxError.

Definition lex_escape (acc : jsstring) (out : list token) (c : code_unit)
  : lex_state :=
  if c =? 34 then LRun (LStr (34 :: acc)) out
  else if c =? 92 then LRun (LStr (92 :: acc)) out
  else if c =? 47 then LRun (LStr (47 :: acc)) out
  else if c =? 98 then LRun (LStr (8 :: acc)) out
  else if c =? 102 then LRun (LStr (12 :: acc)) out
  else if c =? 110 then LRun (LStr (10 :: acc)) out
  else if c =? 114 then LRun (LStr (13 :: acc)) out
  else if c =? 116 then LRun (LStr (9 :: acc)) out
  else if c =? 117 then LRun (LUni acc 4 0) out
  else LSyntaxError.

(** One character of the text. String contents are collected in reverse,
    and so are the tokens. *)
Definition lex_step (st : lex_state) (c : code_unit) : lex_state :=
  match st with
  | LRun LNormal out => lex_normal out c
  | LRun (LWord expect t) out =>
      match expect with
      | [] => LSyntaxError
      | [e] => if c =? e then LRun LNormal (t :: out) else LSyntaxError
      | e :: expect' =>
          if c =? e then LRun (LWord expect' t) out else LSyntaxError
      end
  | LRun (LStr acc) out =>
      if c =? 34 then LRun LNormal (TString (rev acc) :: out)
      else if c =? 92 then LRun (LEsc acc) out
      else if c <? 32 then LSyntaxError
      else LRun (LStr (c :: acc)) out
  | LRun (LEsc acc) out => lex_escape acc out c
  | LRun (LUni acc remaining value) out =>
      match hex_value c with
      | None => LSyntaxError
      | Some h =>
          match remaining with
          | O => LSyntaxError
          | S O => LRun (LStr ((value * 16 + h) :: acc)) out
          | S r => LRun (LUni acc r (value * 16 + h)) out
          end
      end
  | LSyntaxError => LSyntaxError
  | LNumber => LNumber
  end.

Definition lex_run (st : lex_state) (text : jsstring) : lex_state :=
  fold_left lex_step text st.

(** *** Values from tokens *)

(** An enclosing array with its items so far (last first), or an
    enclosing object with its members so far and the key being read. *)
Inductive frame : Type :=
| FArr (items : list json)
| FObj (members : fields) (key : jsstring).

Inductive parse_state : Type :=
| PValue (stack : list frame)
| PArrFirst (stack : list frame)
| PArrNext (items : list json) (stack : list frame)
| PObjFirst (stack : list frame)
| PObjKey (members : fields) (stack : list frame)
| PObjColon (members : fields) (key : jsstring) (stack : list frame)
| PObjNext (members : fields) (stack : list frame)
| PDone (v : json)
| PError.

(** A value is complete: hand it to what encloses it. A repeated key
    overwrites the earlier member. *)
Definition deliver (v : json) (stack : list frame) : parse_state :=
  match stack with
  | [] => PDone v
  | FArr items :: stack' => PArrNext (v :: items) stack'
  | FObj members key :: stack' => PObjNext (obj_set members key v) stack'
  end.

Definition parse_value_token (stack : list frame) (t : token) : parse_state :=
  match t with
  | TString s => deliver (JString s) stack
  | TTrue => deliver (JBool true) stack
  | TFalse => deliver (JBool false) stack
  | TNull => deliver JNull stack
  | TLBrace => PObjFirst stack
  | TLBracket => PArrFirst stack
  | _ => PError
  end.

Definition parse_step (st : parse_state) (t : token) : parse_state :=
  match st with
  | PValue stack => parse_value_token stack t
  | PArrFirst stack =>
      match t with
      | TRBracket => deliver (JArray []) stack
      | _ => parse_value_token (FArr [] :: stack) t
      end
  | PArrNext items stack =>
      match t with
      | TComma => PValue (FArr items :: stack)
      | TRBracket => deliver (JArray (rev items)) stack
      | _ => PError
      end
  | PObjFirst stack =>
      match t with
      | TRBrace => deliver (JObject []) stack
      | TString k => PObjColon [] k stack
      | _ => PError
      end
  | PObjKey members stack =>
      match t with
      | TString k => PObjColon members k stack
      | _ => PError
      end
  | PObjColon members key stack =>
      match t with
      | TColon => PValue (FObj members key :: stack)
      | _ => PError
      end
  | PObjNext members stack =>
      match t with
      | TComma => PObjKey members stack
      | TRBrace => deliver (JObject members) stack
      | _ => PError
      end
  | PDone _ => PError
  | PError => PError
  end.

Definition parse_run (st : parse_state) (ts : list token) : parse_state :=
  fold_left parse_step ts st.

Definition parse_tokens (ts : list token) : parse_result :=
  match parse_run (PValue []) ts with
  | PDone v => Parsed v
  | _ => SyntaxError
  end.

Definition JSON_parse (text : jsstring) : parse_result :=
  match lex_run (LRun LNormal []) text with
  | LRun LNormal out => parse_tokens (rev out)
  | LRun _ _ => SyntaxError
  | LSyntaxError => SyntaxError
  | LNumber => NumberLiteral
  end.

(* ------------------------------------------------------------------ *)
(** ** Values at run time *)

(** What [catch (error)] receives, as far as [withErrorHandling] looks
    into it: [error.error] with its [type] and [message], and
    [error.message]. [None] is [undefined]. *)
Record error_body : Type := {
  body_type : option jsstring;
  body_message : option jsstring
}.

Record thrown : Type := {
  thrown_error : option error_body;
  thrown_message : option jsstring
}.

(** [new Error(message)]. *)
Definition Error (message : jsstring) : thrown :=
  {| thrown_error := None; thrown_message := Some message |}.

(** ToBoolean of a property value; [None] is [undefined]. *)
Definition truthy (v : option json) : bool :=
  match v with
  | None => false
  | Some JNull => false
  | Some (JBool b) => b
  | Some (JString s) => nonempty s
  | Some (JArray _) => true
  | Some (JObject _) => true
  end.

(** ToString of a value, as a template literal applies it. *)
Fixpoint to_display (v : json) : jsstring :=
  match v with
  | JNull => lit "null"
  | JBool true => lit "true"
  | JBool false => lit "false"
  | JString s => s
  | JArray items =>
      join [44]
        (map (fun x => match x with JNull => [] | _ => to_display x end) items)
  | JObject _ => lit "[object Object]"
  end.

Definition template (v : option json) : jsstring :=
  match v with
  | None => lit "undefined"
  | Some v => to_display v
  end.

Definition template_string (s : option jsstring) : jsstring :=
  match s with
  | None => lit "undefined"
  | Some s => s
  end.

Definition digit_char (d : N) : code_unit := 48 + d.

Fixpoint uint_chars (u : Decimal.uint) : jsstring :=
  match u with
  | Decimal.Nil => []
  | Decimal.D0 u' => digit_char 0 :: uint_chars u'
  | Decimal.D1 u' => digit_char 1 :: uint_chars u'
  | Decimal.D2 u' => digit_char 2 :: uint_chars u'
  | Decimal.D3 u' => digit_char 3 :: uint_chars u'
  | Decimal.D4 u' => digit_char 4 :: uint_chars u'
  | Decimal.D5 u' => digit_char 5 :: uint_chars u'
  | Decimal.D6 u' => digit_char 6 :: uint_chars u'
  | Decimal.D7 u' => digit_char 7 :: uint_chars u'
  | Decimal.D8 u' => digit_char 8 :: uint_chars u'
  | Decimal.D9 u' => digit_char 9 :: uint_chars u'
  end.

(** ToString of a list length. *)
Definition length_string (A : Type) (l : list A) : jsstring :=
  uint_chars (Nat.to_uint (List.length l)).

(** The three ways the program touches a property of a parsed file, for
    the keys [apiKey] and [projectId], which no prototype defines. The
    code is module code, hence strict. *)
Inductive access (A : Type) : Type :=
| Accessed (a : A)
| TypeError.
Arguments TypeError {A}.

(** [v[k]]. *)
Definition get_member (v : json) (k : jsstring) : access (option json) :=
  match v with
  | JNull => TypeError
  | JObject o => Accessed (obj_get o k)
  | _ => Accessed None
  end.

(** [v[k] = x]. On an array the new property is one that
    [JSON.stringify], the only later reader, leaves out. *)
Definition set_member (v : json) (k : jsstring) (x : json) : access json :=
  match v with
  | JObject o => Accessed (JObject (obj_set o k x))
  | JArray items => Accessed (JArray items)
  | _ => TypeError
  end.

(** [delete v[k]]. *)
Definition delete_member (v : json) (k : jsstring) : access json :=
  match v with
  | JNull => TypeError
  | JObject o => Accessed (JObject (obj_delete o k))
  | _ => Accessed v
  end.

(** [{...o}]: the own properties, defined one by one on a new object. *)
Definition spread (o : fields) : fields :=
  fold_left (fun acc kv => obj_set acc (fst kv) (snd kv)) o [].

(* ------------------------------------------------------------------ *)
(** ** The process and what surrounds it *)

(** [src/files.ts]: [FileContent]. *)
Record FileContent : Type := {
  name : jsstring;
  content : jsstring
}.

Record find_query : Type := {
  query_limit : option Z;
  query_favorite : bool
}.

(** [ChatDetail | ReadableStream], the result type of [chats.init] and
    [chats.sendMessage]. *)
Inductive chat_response : Type :=
| ChatDetail (detail : fields)
| ReadableStream.

(** The operations of the remote service the handlers below invoke, each
    with the API key its client was created with. *)
Inductive request : Type :=
| UserGet (apiKey : json)
| ChatsFind (apiKey : json) (query : find_query)
| ChatsDelete (apiKey : json) (chatId : jsstring)
| ChatsInit (apiKey : json) (files : list FileContent) (projectId : option json)
| ChatsSendMessage (apiKey : json) (chatId : option json) (message : jsstring)
| ProjectsGet (apiKey : json) (projectId : jsstring).

(** What does not change while a command runs: the environment variable,
    the line typed at the prompt, the directory tree as [Glob.scan] and
    [Bun.file(..).text()] see it, the answers of the remote service, and
    what is left to the engine (the errors it throws, date formatting). *)
Record platform : Type := {
  env_V0_API_KEY : option jsstring;
  answer : jsstring;
  glob_scan : jsstring -> list jsstring;
  read_text : jsstring -> thrown + jsstring;
  user_get : json -> thrown + json;
  chats_find : json -> find_query -> thrown + option (list fields);
  chats_delete : json -> jsstring -> thrown + json;
  chats_init :
    json -> list FileContent -> option json -> thrown + chat_response;
  chats_sendMessage : json -> option json -> jsstring -> thrown + chat_response;
  projects_get : json -> jsstring -> thrown + json;
  syntax_error : jsstring -> thrown;
  type_error : thrown;
  toLocaleDateString : option json -> jsstring
}.

(** What a command can change: the configuration directory and file, the
    marker file of the working directory, the two output streams (one
    entry per write), the clients constructed and the remote operations
    invoked, latest last. *)
Record state : Type := {
  config_dir : bool;
  config_file : option jsstring;
  project_file : option jsstring;
  stdout : list jsstring;
  stderr : list jsstring;
  clients : list json;
  requests : list request
}.

(** How a piece of handler code ends: it returns, throws, ends the
    process through [process.exit], or has read a file this model does
    not cover (see [parse_result]). *)
Inductive outcome (A : Type) : Type :=
| Returned (a : A)
| Threw (e : thrown)
| Exited (code : N)
| Unmodelled.
Arguments Threw {A} e.
Arguments Exited {A} code.
Arguments Unmodelled {A}.

Definition M (A : Type) : Type := state -> outcome A * state.

Definition ret (A : Type) (a : A) : M A := fun s => (Returned a, s).

Definition bind (A B : Type) (c : M A) (k : A -> M B) : M B :=
  fun s =>
    match c s with
    | (Returned a, s') => k a s'
    | (Threw e, s') => (Threw e, s')
    | (Exited code, s') => (Exited code, s')
    | (Unmodelled, s') => (Unmodelled, s')
    end.

Notation "x <- c ;; k" := (bind c (fun x => k))
  (at level 61, c at next level, right associativity).
Notation "c ;; k" := (bind c (fun _ => k))
  (at level 61, right associativity).

Definition throw (A : Type) (e : thrown) : M A := fun s => (Threw e, s).

Definition process_exit (A : Type) (code : N) : M A :=
  fun s => (Exited code, s).

Definition unmodelled (A : Type) : M A := fun s => (Unmodelled, s).

Arguments throw {A} e.
Arguments process_exit {A} code.
Arguments unmodelled {A}.

Definition when (b : bool) (c : M unit) : M unit :=
  if b then c else ret tt.

Definition console_log (line : jsstring) : M unit :=
  fun s =>
    (Returned tt,
     {| config_dir := config_dir s; config_file := config_file s;
        project_file := project_file s;
        stdout := stdout s ++ [line]; stderr := stderr s;
        clients := clients s; requests := requests s |}).

Definition console_error (line : jsstring) : M unit :=
  fun s =>
    (Returned tt,
     {| config_dir := config_dir s; config_file := config_file s;
        project_file := project_file s;
        stdout := stdout s; stderr := stderr s ++ [line];
        clients := clients s; requests := requests s |}).

(** One remote operation: it is recorded, and returns or throws as the
    service answers. *)
Definition invoke (A : Type) (r : request) (response : thrown + A) : M A :=
  fun s =>
    (match response with inl e => Threw e | inr a => Returned a end,
     {| config_dir := config_dir s; config_file := config_file s;
        project_file := project_file s;
        stdout := stdout s; stderr := stderr s;
        clients := clients s; requests := requests s ++ [r] |}).

(** [createClient({ apiKey })]; the client is known by its key. *)
Definition createClient (apiKey : json) : M json :=
  fun s =>
    (Returned apiKey,
     {| config_dir := config_dir s; config_file := config_file s;
        project_file := project_file s;
        stdout := stdout s; stderr := stderr s;
        clients := clients s ++ [apiKey]; requests := requests s |}).

Definition accessed (A : Type) (P : platform) (a : access A) : M A :=
  match a with
  | Accessed x => ret x
  | TypeError => throw (type_error P)
  end.

(** [JSON.parse(text)] inside a handler. *)
Definition parsed (P : platform) (text : jsstring) : M json :=
  match JSON_parse text with
  | Parsed v => ret v
  | SyntaxError => throw (syntax_error P text)
  | NumberLiteral => unmodelled
  end.

Definition get_state : M state := fun s => (Returned s, s).

(** [mkdirSync(CONFIG_DIR, { recursive: true })]. *)
Definition mkdirSync_CONFIG_DIR : M unit :=
  fun s =>
    (Returned tt,
     {| config_dir := true; config_file := config_file s;
        project_file := project_file s;
        stdout := stdout s; stderr := stderr s;
        clients := clients s; requests := requests s |}).

(** What is left of a string that was written to a file as UTF-8 and
    read back: a surrogate without its partner has become U+FFFD. *)
Fixpoint to_well_formed (s : jsstring) : jsstring :=
  match s with
  | [] => []
  | c :: rest =>
      if is_lead c then
        match rest with
        | d :: rest' =>
            if is_trail d then c :: d :: to_well_formed rest'
            else 65533 :: to_well_formed rest
        | [] => [65533]
        end
      else if is_trail c then 65533 :: to_well_formed rest
      else c :: to_well_formed rest
  end.

(** [Bun.write(CONFIG_FILE, text)]; the state keeps of a file what
    [Bun.file(..).text()] returns. The program only ever writes what
    [JSON.stringify] gave it. *)
Definition Bun_write_CONFIG_FILE (text : jsstring) : M unit :=
  fun s =>
    (Returned tt,
     {| config_dir := config_dir s;
        config_file := Some (to_well_formed text);
        project_file := project_file s;
        stdout := stdout s; stderr := stderr s;
        clients := clients s; requests := requests s |}).

(** [Bun.write(PROJECT_FILE, text)]. *)
Definition Bun_write_PROJECT_FILE (text : jsstring) : M unit :=
  fun s =>
    (Returned tt,
     {| config_dir := config_dir s; config_file := config_file s;
        project_file := Some (to_well_formed text);
        stdout := stdout s; stderr := stderr s;
        clients := clients s; requests := requests s |}).

(** [rm PROJECT_FILE]. *)
Definition rm_PROJECT_FILE : M unit :=
  fun s =>
    (Returned tt,
     {| config_dir := config_dir s; config_file := config_file s;
        project_file := None;
        stdout := stdout s; stderr := stderr s;
        clients := clients s; requests := requests s |}).

(* ------------------------------------------------------------------ *)
(** ** [src/files.ts] *)

Section files.
Variable P : platform.

(** [seen.has(file)]. *)
Definition seen_has (seen : list jsstring) (file : jsstring) : bool :=
  existsb (jsstring_eqb file) seen.

(** The [for await (const file of glob.scan("."))] loop, over what the
    scan yields; [files] and [seen] are the two accumulators. *)
Fixpoint collect_scan (found : list jsstring)
    (files : list FileContent) (seen : list jsstring)
  : thrown + (list FileContent * list jsstring) :=
  match found with
  | [] => inr (files, seen)
  | file :: found' =>
      if includes file (lit "node_modules/") || includes file (lit ".git/")
      then collect_scan found' files seen
      else if seen_has seen file then collect_scan found' files seen
      else
        match read_text P file with
        | inl e => inl e
        | inr text =>
            collect_scan found'
              (files ++ [{| name := file; content := text |}])
              (file :: seen)
        end
  end.

(** The [for (const pattern of patterns)] loop. *)
Fixpoint collect_patterns (patterns : list jsstring)
    (files : list FileContent) (seen : list jsstring)
  : thrown + (list FileContent * list jsstring) :=
  match patterns with
  | [] => inr (files, seen)
  | pattern :: patterns' =>
      match collect_scan (glob_scan P pattern) files seen with
      | inl e => inl e
      | inr (files', seen') => collect_patterns patterns' files' seen'
      end
  end.

Definition collectFiles (patterns : list jsstring)
  : thrown + list FileContent :=
  match collect_patterns patterns [] [] with
  | inl e => inl e
  | inr (files, _) => inr files
  end.
End files.

(* ------------------------------------------------------------------ *)
(** ** [src/config.ts] *)

(** [V0Config] and [ProjectLink] are what the type checker takes the two
    parsed files for. At run time [JSON.parse] returns whatever value the
    file spells, hence the type [json] of what the readers return. *)

Section config.
Variable P : platform.

Definition readConfig : M json :=
  s <- get_state ;;
  match config_file s with
  | None => ret (JObject [])
  | Some text => parsed P text
  end.

Definition writeConfig (config : json) : M unit :=
  s <- get_state ;;
  when (negb (config_dir s)) mkdirSync_CONFIG_DIR ;;
  Bun_write_CONFIG_FILE (JSON_stringify config).

(** The result is [null], here [JNull], when there is no marker file. *)
Definition readProjectLink : M json :=
  s <- get_state ;;
  match project_file s with
  | None => ret JNull
  | Some text => parsed P text
  end.

Definition writeProjectLink (projectId : jsstring) : M unit :=
  Bun_write_PROJECT_FILE
    (JSON_stringify (JObject [(lit "projectId", JString projectId)])).

Definition removeProjectLink : M unit :=
  s <- get_state ;;
  match project_file s with
  | Some _ => rm_PROJECT_FILE
  | None => ret tt
  end.

Definition no_api_key : thrown :=
  Error (lit "No API key found. Run 'v0 login' or set V0_API_KEY.").

Definition resolveApiKey : M json :=
  match env_V0_API_KEY P with
  | Some ((_ :: _) as envKey) => ret (JString envKey)
  | _ => throw no_api_key
  end.

Definition resolveApiKeyWithConfig : M json :=
  match env_V0_API_KEY P with
  | Some ((_ :: _) as envKey) => ret (JString envKey)
  | _ =>
      config <- readConfig ;;
      apiKey <- accessed P (get_member config (lit "apiKey")) ;;
      match apiKey with
      | Some key => if truthy apiKey then ret key else throw no_api_key
      | None => throw no_api_key
      end
  end.

Definition getClient : M json :=
  apiKey <- resolveApiKeyWithConfig ;;
  createClient apiKey.
End config.

(* ------------------------------------------------------------------ *)
(** ** [src/index.ts] *)

(** The options of [chat list]; [list_limit] is [None] when [--limit] is
    not given or [parseInt] made nothing of it. *)
Record list_opts : Type := {
  list_favorites : bool;
  list_limit : option Z;
  list_json : bool
}.

Record init_opts : Type := {
  init_message : option jsstring;
  init_project : bool;
  init_json : bool
}.

Section index.
Variable P : platform.

Definition error_type (e : thrown) : option jsstring :=
  match thrown_error e with
  | Some body => body_type body
  | None => None
  end.

Definition error_message (e : thrown) : option jsstring :=
  match thrown_error e with
  | Some body => body_message body
  | None => None
  end.

(** [error?.error?.type === t]. *)
Definition type_is (e : thrown) (t : string) : bool :=
  match error_type e with
  | Some s => jsstring_eqb s (lit t)
  | None => false
  end.

(** What the [catch] block prints. *)
Definition report (e : thrown) : jsstring :=
  if type_is e "unauthorized_error" then
    lit "Not authenticated. Run 'v0 login' or set V0_API_KEY."
  else if type_is e "not_found_error" then
    lit "Not found: " ++ template_string (error_message e)
  else if type_is e "too_many_requests_error" then
    lit "Rate limited. Try again shortly."
  else if type_is e "payload_too_large_error" then
    lit "Payload too large. Try reducing the number or size of files."
  else
    match error_message e with
    | Some m => m
    | None =>
        match thrown_message e with
        | Some m => m
        | None => lit "Unknown error"
        end
    end.

Definition withErrorHandling (fn : M unit) : M unit :=
  fun s =>
    match fn s with
    | (Threw e, s') => (console_error (report e) ;; process_exit 1) s'
    | r => r
    end.

(** The exit code of the process when an action ends. *)
Definition exit_code (o : outcome unit) : option N :=
  match o with
  | Returned _ => Some 0
  | Exited code => Some code
  | Threw _ => None
  | Unmodelled => None
  end.

(** [rl.question(prompt, ..)]: the prompt goes out, the typed line
    comes back. *)
Definition question (prompt : jsstring) : M jsstring :=
  fun s =>
    (Returned (answer P),
     {| config_dir := config_dir s; config_file := config_file s;
        project_file := project_file s;
        stdout := stdout s ++ [prompt]; stderr := stderr s;
        clients := clients s; requests := requests s |}).

Definition login_action : M unit :=
  line <- question (lit "Enter your V0 API key: ") ;;
  let apiKey := trim line in
  when (negb (nonempty apiKey))
    (console_error (lit "API key cannot be empty") ;; process_exit 1) ;;
  client <- createClient (JString apiKey) ;;
  invoke (UserGet client) (user_get P client) ;;
  config <- readConfig P ;;
  config <- accessed P (set_member config (lit "apiKey") (JString apiKey)) ;;
  writeConfig config ;;
  console_log (lit "Successfully authenticated!").

Definition login : M unit := withErrorHandling login_action.

Definition logout_action : M unit :=
  config <- readConfig P ;;
  config <- accessed P (delete_member config (lit "apiKey")) ;;
  writeConfig config ;;
  console_log (lit "Logged out successfully").

Definition logout : M unit := withErrorHandling logout_action.

Definition favorite_mark : jsstring := [32; 8218; 8800; 234].
Definition private_mark : jsstring := [32; 63743; 252; 238; 237].

Definition chat_line (chat : fields) : jsstring :=
  let favorite :=
    if truthy (obj_get chat (lit "favorite")) then favorite_mark else [] in
  let privacy :=
    match obj_get chat (lit "privacy") with
    | Some (JString p) =>
        if jsstring_eqb p (lit "private") then private_mark else []
    | _ => []
    end in
  template (obj_get chat (lit "id")) ++ lit " - "
    ++ template (obj_get chat (lit "name")) ++ favorite ++ privacy
    ++ lit " (" ++ toLocaleDateString P (obj_get chat (lit "createdAt"))
    ++ lit ")".

Fixpoint log_chats (chats : list fields) : M unit :=
  match chats with
  | [] => ret tt
  | chat :: chats' => console_log (chat_line chat) ;; log_chats chats'
  end.

(** [queryOpts]: the limit when it is truthy, [favorite] when asked. *)
Definition find_query_of (opts : list_opts) : find_query :=
  {| query_limit :=
       match list_limit opts with
       | Some 0%Z => None
       | limit => limit
       end;
     query_favorite := list_favorites opts |}.

Definition chat_list_action (opts : list_opts) : M unit :=
  client <- getClient P ;;
  let queryOpts := find_query_of opts in
  data <- invoke (ChatsFind client queryOpts) (chats_find P client queryOpts) ;;
  let chats := match data with Some chats => chats | None => [] end in
  if list_json opts then
    console_log (JSON_stringify (JArray (map JObject chats)))
  else
    match chats with
    | [] => console_log (lit "No chats found")
    | _ => log_chats chats
    end.

Definition chat_list (opts : list_opts) : M unit :=
  withErrorHandling (chat_list_action opts).

Definition chat_delete_action (chatId : jsstring) : M unit :=
  client <- getClient P ;;
  invoke (ChatsDelete client chatId) (chats_delete P client chatId) ;;
  console_log (lit "Chat " ++ chatId ++ lit " deleted").

Definition chat_delete (chatId : jsstring) : M unit :=
  withErrorHandling (chat_delete_action chatId).

Definition lift (A : Type) (r : thrown + A) : M A :=
  match r with
  | inl e => throw e
  | inr a => ret a
  end.

Definition unexpected_stream : thrown :=
  Error (lit "Unexpected stream response").

Definition chat_init_action (patterns : list jsstring) (opts : init_opts)
  : M unit :=
  when (match patterns with [] => true | _ => false end)
    (console_error (lit "No file patterns provided") ;; process_exit 1) ;;
  files <- lift (collectFiles P patterns) ;;
  when (match files with [] => true | _ => false end)
    (console_error (lit "No files found matching patterns") ;;
     process_exit 1) ;;
  client <- getClient P ;;
  projectId <-
    (if init_project opts then
       link <- readProjectLink P ;;
       if truthy (Some link)
       then accessed P (get_member link (lit "projectId"))
       else ret None
     else ret None) ;;
  let projectId := if truthy projectId then projectId else None in
  response <-
    invoke (ChatsInit client files projectId)
      (chats_init P client files projectId) ;;
  match response with
  | ReadableStream => throw unexpected_stream
  | ChatDetail result =>
      let id := obj_get result (lit "id") in
      match init_message opts with
      | Some ((_ :: _) as message) =>
          messageResult <-
            invoke (ChatsSendMessage client id message)
              (chats_sendMessage P client id message) ;;
          match messageResult with
          | ReadableStream => throw unexpected_stream
          | ChatDetail _ => ret tt
          end
      | _ => ret tt
      end ;;
      let url := lit "https://v0.dev/chat/" ++ template id in
      if init_json opts then
        console_log
          (JSON_stringify
             (JObject (obj_set (spread result) (lit "url") (JString url))))
      else
        console_log (lit "Chat initialized: " ++ template id) ;;
        console_log (lit "Files attached: " ++ length_string files) ;;
        console_log url
  end.

Definition chat_init (patterns : list jsstring) (opts : init_opts)
  : M unit :=
  withErrorHandling (chat_init_action patterns opts).

Definition link_action (projectId : jsstring) : M unit :=
  client <- getClient P ;;
  invoke (ProjectsGet client projectId) (projects_get P client projectId) ;;
  writeProjectLink projectId ;;
  console_log (lit "Linked to project: " ++ projectId).

Definition link (projectId : jsstring) : M unit :=
  withErrorHandling (link_action projectId).

Definition unlink_action : M unit :=
  removeProjectLink ;;
  console_log (lit "Project link removed").

Definition unlink : M unit := withErrorHandling unlink_action.
End index.

(* ------------------------------------------------------------------ *)
(** ** Notions the statements below are written in *)

(** The state after one more line on a stream, and after one more
    client. *)
Definition say (line : jsstring) (s : state) : state :=
  snd (console_log line s).

Definition say_error (line : jsstring) (s : state) : state :=
  snd (console_error line s).

Definition add_client (apiKey : json) (s : state) : state :=
  snd (createClient apiKey s).

(** The environment gives no key: the variable is unset, or set to the
    empty string. *)
Definition env_key_unset (P : platform) : Prop :=
  env_V0_API_KEY P = None \/ env_V0_API_KEY P = Some [].

(** *** The file collector, as the specification words it *)

(** A path the collector leaves out. *)
Definition excluded (file : jsstring) : bool :=
  includes file (lit "node_modules/") || includes file (lit ".git/").

(** [seg] followed by a slash starts [path] or follows a slash in it. *)
Fixpoint segment_from (at_start : bool) (seg path : jsstring) : bool :=
  (at_start && starts_with (seg ++ [47]) path)
  || match path with
     | [] => false
     | c :: path' => segment_from (c =? 47) seg path'
     end.

(** [path] has the directory segment [seg]. *)
Definition has_dir_segment (seg path : jsstring) : bool :=
  segment_from true seg path.

(** Every path once, where it first occurs. *)
Fixpoint dedupe (l : list jsstring) : list jsstring :=
  match l with
  | [] => []
  | x :: l' => x :: filter (fun y => negb (jsstring_eqb y x)) (dedupe l')
  end.

Definition unseen (seen : list jsstring) (l : list jsstring) : list jsstring :=
  filter (fun y => negb (seen_has seen y)) (dedupe l).

(** The content of a collected file is what reading its name gives. *)
Definition read_back (P : platform) (f : FileContent) : Prop :=
  read_text P (name f) = inr (content f).

(** *** The tokens of a value, and the invariants of the two passes *)

Fixpoint tokens (v : json) : list token :=
  match v with
  | JNull => [TNull]
  | JBool true => [TTrue]
  | JBool false => [TFalse]
  | JString s => [TString s]
  | JArray [] => [TLBracket; TRBracket]
  | JArray (x :: xs) =>
      TLBracket :: tokens x
        ++ flat_map (fun y => TComma :: tokens y) xs ++ [TRBracket]
  | JObject [] => [TLBrace; TRBrace]
  | JObject ((k, x) :: ms) =>
      TLBrace :: TString k :: TColon :: tokens x
        ++ flat_map
             (fun kv => TComma :: TString (fst kv) :: TColon :: tokens (snd kv))
             ms
        ++ [TRBrace]
  end.

(** Between two tokens, [text] adds the tokens [ts]. *)
Definition lexes (text : jsstring) (ts : list token) : Prop :=
  forall out, lex_run (LRun LNormal out) text = LRun LNormal (rev ts ++ out).

(** [a] goes through a file as it is, whatever follows it. *)
Definition passes (a : jsstring) : Prop :=
  forall t, to_well_formed (a ++ t) = a ++ to_well_formed t.

Definition is_surrogate (c : code_unit) : bool := is_lead c || is_trail c.

(** Where a value is expected, the tokens of [v] deliver [v]. *)
Definition reparses (v : json) : Prop :=
  well_formed v = true ->
  forall stack rest,
    parse_run (PValue stack) (tokens v ++ rest)
    = parse_run (deliver v stack) rest.

Definition frame_ok (f : frame) : bool :=
  match f with
  | FArr items => forallb well_formed items
  | FObj members _ => well_formed (JObject members)
  end.

Definition state_ok (st : parse_state) : bool :=
  match st with
  | PValue stack | PArrFirst stack | PObjFirst stack => forallb frame_ok stack
  | PArrNext items stack =>
      forallb well_formed items && forallb frame_ok stack
  | PObjKey ms stack | PObjColon ms _ stack | PObjNext ms stack =>
      well_formed (JObject ms) && forallb frame_ok stack
  | PDone v => well_formed v
  | PError => true
  end.

(** *** Sample surroundings *)

(** A service that grants everything, an empty tree, no key anywhere. *)
Definition quiet_platform : platform :=
  {| env_V0_API_KEY := None;
     answer := [];
     glob_scan := fun _ => [];
     read_text := fun _ => inr [];
     user_get := fun _ => inr (JObject []);
     chats_find := fun _ _ => inr (Some []);
     chats_delete := fun _ _ => inr (JObject []);
     chats_init := fun _ _ _ => inr (ChatDetail []);
     chats_sendMessage := fun _ _ _ => inr (ChatDetail []);
     projects_get := fun _ _ => inr (JObject []);
     syntax_error := fun _ => Error (lit "JSON Parse error");
     type_error := Error (lit "TypeError");
     toLocaleDateString := fun _ => [] |}.

Definition fresh_state : state :=
  {| config_dir := false; config_file := None; project_file := None;
     stdout := []; stderr := []; clients := []; requests := [] |}.

Definition with_env (env : option jsstring) (P : platform) : platform :=
  {| env_V0_API_KEY := env;
     answer := answer P;
     glob_scan := glob_scan P;
     read_text := read_text P;
     user_get := user_get P;
     chats_find := chats_find P;
     chats_delete := chats_delete P;
     chats_init := chats_init P;
     chats_sendMessage := chats_sendMessage P;
     projects_get := projects_get P;
     syntax_error := syntax_error P;
     type_error := type_error P;
     toLocaleDateString := toLocaleDateString P |}.

Definition with_answer (line : jsstring) (P : platform) : platform :=
  {| env_V0_API_KEY := env_V0_API_KEY P;
     answer := line;
     glob_scan := glob_scan P;
     read_text := read_text P;
     user_get := user_get P;
     chats_find := chats_find P;
     chats_delete := chats_delete P;
     chats_init := chats_init P;
     chats_sendMessage := chats_sendMessage P;
     projects_get := projects_get P;
     syntax_error := syntax_error P;
     type_error := type_error P;
     toLocaleDateString := toLocaleDateString P |}.

Definition with_glob_scan (scan : jsstring -> list jsstring) (P : platform)
  : platform :=
  {| env_V0_API_KEY := env_V0_API_KEY P;
     answer := answer P;
     glob_scan := scan;
     read_text := read_text P;
     user_get := user_get P;
     chats_find := chats_find P;
     chats_delete := chats_delete P;
     chats_init := chats_init P;
     chats_sendMessage := chats_sendMessage P;
     projects_get := projects_get P;
     syntax_error := syntax_error P;
     type_error := type_error P;
     toLocaleDateString := toLocaleDateString P |}.

Definition with_user_get (f : json -> thrown + json) (P : platform)
  : platform :=
  {| env_V0_API_KEY := env_V0_API_KEY P;
     answer := answer P;
     glob_scan := glob_scan P;
     read_text := read_text P;
     user_get := f;
     chats_find := chats_find P;
     chats_delete := chats_delete P;
     chats_init := chats_init P;
     chats_sendMessage := chats_sendMessage P;
     projects_get := projects_get P;
     syntax_error := syntax_error P;
     type_error := type_error P;
     toLocaleDateString := toLocaleDateString P |}.

Definition with_chats_delete (f : json -> jsstring -> thrown + json)
    (P : platform) : platform :=
  {| env_V0_API_KEY := env_V0_API_KEY P;
     answer := answer P;
     glob_scan := glob_scan P;
     read_text := read_text P;
     user_get := user_get P;
     chats_find := chats_find P;
     chats_delete := f;
     chats_init := chats_init P;
     chats_sendMessage := chats_sendMessage P;
     projects_get := projects_get P;
     syntax_error := syntax_error P;
     type_error := type_error P;
     toLocaleDateString := toLocaleDateString P |}.

(** The state [login] leaves behind on a new machine. *)
Definition logged_in (key : jsstring) : state :=
  snd (writeConfig (JObject [(lit "apiKey", JString key)]) fresh_state).

(** The error of the service for a resource it does not have. *)
Definition not_found (message : jsstring) : thrown :=
  {| thrown_error :=
       Some {| body_type := Some (lit "not_found_error");
               body_message := Some message |};
     thrown_message := None |}.

Definition unauthorized : thrown :=
  {| thrown_error :=
       Some {| body_type := Some (lit "unauthorized_error");
               body_message := Some (lit "Invalid API key") |};
     thrown_message := None |}.

(** The key is in the environment, and the service has no chat. *)
Definition missing_chat_platform : platform :=
  with_chats_delete (fun _ _ => inl (not_found (lit "Chat not found")))
    (with_env (Some (lit "key")) quiet_platform).

(** The service turns the typed key down. *)
Definition bad_key_platform : platform :=
  with_user_get (fun _ => inl unauthorized)
    (with_answer (lit " v1:wrong ") quiet_platform).

(** A tree where one pattern meets a dependency, the repository
    metadata, and one file twice. *)
Definition sample_tree : platform :=
  with_glob_scan
    (fun _ =>
       [lit "src/index.ts"; lit "node_modules/commander/index.ts";
        lit "src/files.ts"; lit ".git/hooks/pre-commit.ts";
        lit "src/index.ts"])
    quiet_platform.

Definition json_list_opts : list_opts :=
  {| list_favorites := false; list_limit := None; list_json := true |}.

Definition plain_list_opts : list_opts :=
  {| list_favorites := false; list_limit := None; list_json := false |}.

Definition plain_init_opts : init_opts :=
  {| init_message := None; init_project := true; init_json := false |}.

(* ------------------------------------------------------------------ *)
(** ** [src/index.ts], two more handlers *)

Section more_handlers.
Variable P : platform.

(** [whoami], with its [--json] flag. *)
Definition whoami_action (json : bool) : M unit :=
  client <- getClient P ;;
  user <- invoke (UserGet client) (user_get P client) ;;
  if json then console_log (JSON_stringify user)
  else
    id <- accessed P (get_member user (lit "id")) ;;
    console_log (lit "ID: " ++ template id) ;;
    email <- accessed P (get_member user (lit "email")) ;;
    console_log (lit "Email: " ++ template email) ;;
    name <- accessed P (get_member user (lit "name")) ;;
    console_log
      (lit "Name: "
         ++ match name with
            | None => lit "N/A"
            | Some JNull => lit "N/A"
            | Some v => to_display v
            end).

Definition whoami (json : bool) : M unit :=
  withErrorHandling (whoami_action json).

(** What running [open url] in the shell comes to: the command ends
    well, or the shell throws. *)
Variable launch : jsstring -> thrown + unit.

(** [chat open]; [browser] is [opts.browser !== false]. *)
Definition chat_open_action (chatId : jsstring) (browser : bool) : M unit :=
  let url := lit "https://v0.dev/chat/" ++ chatId in
  console_log url ;;
  if browser then lift (launch url) else ret tt.

Definition chat_open (chatId : jsstring) (browser : bool) : M unit :=
  withErrorHandling (chat_open_action chatId browser).
End more_handlers.

(** The files a command can leave changed. *)
Definition stores (s : state) : bool * option jsstring * option jsstring :=
  (config_dir s, config_file s, project_file s).

(** A piece of handler code that leaves the files as they are. *)
Definition keeps_stores (A : Type) (c : M A) : Prop :=
  forall s, stores (snd (c s)) = stores s.

(** A piece of handler code that leaves the part [f] of the state as it
    is. *)
Definition keeps (X : Type) (f : state -> X) (A : Type) (c : M A) : Prop :=
  forall s, f (snd (c s)) = f s.

(** The configuration directory and file. *)
Definition config_store (s : state) : bool * option jsstring :=
  (config_dir s, config_file s).

(** The line printed for an error that carries no tag. *)
Definition no_api_key_line : jsstring :=
  lit "No API key found. Run 'v0 login' or set V0_API_KEY.".

(** No key in the environment and none in the config of state [s]. *)
Definition no_credential (P : platform) (s : state) : Prop :=
  env_key_unset P
  /\ exists config stored,
       fst (readConfig P s) = Returned config
       /\ get_member config (lit "apiKey") = Accessed stored
       /\ truthy stored = false.

(** Every scanned path of the patterns is one the collector leaves
    out. *)
Definition all_excluded (P : platform) (patterns : list jsstring) : Prop :=
  forall file, In file (flat_map (glob_scan P) patterns) ->
               excluded file = true.

(** *** More sample surroundings *)

Definition with_read_text (f : jsstring -> thrown + jsstring) (P : platform)
  : platform :=
  {| env_V0_API_KEY := env_V0_API_KEY P;
     answer := answer P;
     glob_scan := glob_scan P;
     read_text := f;
     user_get := user_get P;
     chats_find := chats_find P;
     chats_delete := chats_delete P;
     chats_init := chats_init P;
     chats_sendMessage := chats_sendMessage P;
     projects_get := projects_get P;
     syntax_error := syntax_error P;
     type_error := type_error P;
     toLocaleDateString := toLocaleDateString P |}.

Definition with_chats_find
    (f : json -> find_query -> thrown + option (list fields)) (P : platform)
  : platform :=
  {| env_V0_API_KEY := env_V0_API_KEY P;
     answer := answer P;
     glob_scan := glob_scan P;
     read_text := read_text P;
     user_get := user_get P;
     chats_find := f;
     chats_delete := chats_delete P;
     chats_init := chats_init P;
     chats_sendMessage := chats_sendMessage P;
     projects_get := projects_get P;
     syntax_error := syntax_error P;
     type_error := type_error P;
     toLocaleDateString := toLocaleDateString P |}.

Definition with_chats_init
    (f : json -> list FileContent -> option json -> thrown + chat_response)
    (g : json -> option json -> jsstring -> thrown + chat_response)
    (P : platform) : platform :=
  {| env_V0_API_KEY := env_V0_API_KEY P;
     answer := answer P;
     glob_scan := glob_scan P;
     read_text := read_text P;
     user_get := user_get P;
     chats_find := chats_find P;
     chats_delete := chats_delete P;
     chats_init := f;
     chats_sendMessage := g;
     projects_get := projects_get P;
     syntax_error := syntax_error P;
     type_error := type_error P;
     toLocaleDateString := toLocaleDateString P |}.

Definition with_projects_get (f : json -> jsstring -> thrown + json)
    (P : platform) : platform :=
  {| env_V0_API_KEY := env_V0_API_KEY P;
     answer := answer P;
     glob_scan := glob_scan P;
     read_text := read_text P;
     user_get := user_get P;
     chats_find := chats_find P;
     chats_delete := chats_delete P;
     chats_init := chats_init P;
     chats_sendMessage := chats_sendMessage P;
     projects_get := f;
     syntax_error := syntax_error P;
     type_error := type_error P;
     toLocaleDateString := toLocaleDateString P |}.

(** The key is in the environment. *)
Definition keyed_platform : platform :=
  with_env (Some (lit "key")) quiet_platform.

(** A state whose config file is not JSON. *)
Definition corrupt_state : state :=
  {| config_dir := true; config_file := Some (lit "{apiKey}");
     project_file := None;
     stdout := []; stderr := []; clients := []; requests := [] |}.

(** A directory linked to [proj_123]. *)
Definition linked_state : state :=
  snd (writeProjectLink (lit "proj_123") fresh_state).


(** In the sample tree, the files under [node_modules] and [.git]
    cannot be read. *)
Definition guarded_tree : platform :=
  with_read_text
    (fun file => if excluded file then inl (Error (lit "EACCES")) else inr [])
    sample_tree.

(** A tree with nothing but a dependency in it. *)
Definition vendor_tree : platform :=
  with_glob_scan (fun _ => [lit "node_modules/commander/index.js"])
    quiet_platform.

(** A tree where the second file cannot be read. *)
Definition broken_tree : platform :=
  with_read_text
    (fun file =>
       if jsstring_eqb file (lit "src/files.ts")
       then inl (Error (lit "EACCES")) else inr [])
    sample_tree.

Definition two_chats : list fields :=
  [ [(lit "id", JString (lit "a1")); (lit "name", JString (lit "Navbar"));
     (lit "favorite", JBool true); (lit "privacy", JString (lit "private"))];
    [(lit "id", JString (lit "b2")); (lit "favorite", JBool false);
     (lit "privacy", JString (lit "public"))] ].

(** The service has two chats. *)
Definition chatty_platform : platform :=
  with_chats_find (fun _ _ => inr (Some two_chats)) keyed_platform.

(** One source file, and a service that creates the chat [c1] but
    fails on the follow-up message. *)
Definition half_way_platform : platform :=
  with_chats_init
    (fun _ _ _ => inr (ChatDetail [(lit "id", JString (lit "c1"))]))
    (fun _ _ _ => inl (Error (lit "socket hang up")))
    (with_glob_scan (fun _ => [lit "src/index.ts"]) keyed_platform).

(** The service does not know the project. *)
Definition no_project_platform : platform :=
  with_projects_get (fun _ _ => inl (not_found (lit "Project not found")))
    keyed_platform.

Unset Implicit Arguments.

(* ------------------------------------------------------------------ *)
(** ** Strings *)

Lemma jsstring_eqb_eq (a b : jsstring) : jsstring_eqb a b = true <-> a = b.
Proof.
  revert b; induction a as [|x a IH]; intros [|y b]; simpl; split;
    try congruence; try reflexivity.
  - intros H. apply andb_true_iff in H as [Hx Hab].
    apply N.eqb_eq in Hx. apply IH in Hab. congruence.
  - intros H. injection H as -> ->. rewrite N.eqb_refl. simpl. now apply IH.
Qed.

Lemma jsstring_eqb_refl (a : jsstring) : jsstring_eqb a a = true.
Proof. now apply jsstring_eqb_eq. Qed.

Lemma jsstring_eqb_sym (a b : jsstring) : jsstring_eqb a b = jsstring_eqb b a.
Proof.
  destruct (jsstring_eqb a b) eqn:E1, (jsstring_eqb b a) eqn:E2; try reflexivity.
  - apply jsstring_eqb_eq in E1. subst. rewrite jsstring_eqb_refl in E2. discriminate.
  - apply jsstring_eqb_eq in E2. subst. rewrite jsstring_eqb_refl in E1. discriminate.
Qed.

Lemma segment_includes seg path : forall at_start,
  segment_from at_start seg path = true -> includes path (seg ++ [47]) = true.
Proof.
  induction path as [|c path IH]; intros at_start; simpl.
  - rewrite orb_false_r. intros H. apply andb_true_iff in H as [_ H].
    now rewrite H.
  - intros H. apply orb_true_iff in H as [H|H].
    + apply andb_true_iff in H as [_ H]. now rewrite H.
    + rewrite (IH _ H). apply orb_true_r.
Qed.

(* ------------------------------------------------------------------ *)
(** ** Reading back what [JSON.stringify] wrote *)

(** *** The text gives back the tokens *)

Lemma lex_run_app st a b : lex_run st (a ++ b) = lex_run (lex_run st a) b.
Proof. apply fold_left_app. Qed.

Lemma lex_run_cons st c s : lex_run st (c :: s) = lex_run (lex_step st c) s.
Proof. reflexivity. Qed.

Lemma lex_ws out ind :
  forallb is_json_ws ind = true ->
  lex_run (LRun LNormal out) ind = LRun LNormal out.
Proof.
  induction ind as [|c ind IH]; simpl; [reflexivity|].
  intros H. apply andb_true_iff in H as [Hc Hind].
  unfold lex_run in *. simpl. unfold lex_normal. rewrite Hc. now apply IH.
Qed.

Lemma hex_value_digit d : d < 16 -> hex_value (hex_digit d) = Some d.
Proof.
  intros Hd. unfold hex_digit, hex_value.
  destruct (d <? 10) eqn:E.
  - apply N.ltb_lt in E.
    replace ((48 <=? 48 + d) && (48 + d <=? 57)) with true.
    + f_equal. lia.
    + symmetry. apply andb_true_iff. split; apply N.leb_le; lia.
  - apply N.ltb_ge in E.
    replace ((48 <=? 87 + d) && (87 + d <=? 57)) with false.
    + replace ((97 <=? 87 + d) && (87 + d <=? 102)) with true.
      * f_equal. lia.
      * symmetry. apply andb_true_iff. split; apply N.leb_le; lia.
    + symmetry. apply andb_false_iff. right. apply N.leb_gt. lia.
Qed.

Lemma hex4 c :
  c < 65536 ->
  (((0 * 16 + (c / 4096) mod 16) * 16 + (c / 256) mod 16) * 16
   + (c / 16) mod 16) * 16 + c mod 16 = c.
Proof.
  intros H. zify. Z.to_euclidean_division_equations. lia.
Qed.

Lemma lex_uni_more acc out r v d :
  d < 16 ->
  lex_step (LRun (LUni acc (S (S r)) v) out) (hex_digit d)
  = LRun (LUni acc (S r) (v * 16 + d)) out.
Proof. intros Hd. cbn [lex_step]. now rewrite hex_value_digit. Qed.

Lemma lex_uni_last acc out v d :
  d < 16 ->
  lex_step (LRun (LUni acc 1 v) out) (hex_digit d)
  = LRun (LStr ((v * 16 + d) :: acc)) out.
Proof. intros Hd. cbn [lex_step]. now rewrite hex_value_digit. Qed.

Lemma lex_unicode_escape acc out c :
  c < 65536 ->
  lex_run (LRun (LStr acc) out) (unicode_escape c) = LRun (LStr (c :: acc)) out.
Proof.
  intros Hc. unfold unicode_escape, lex_run.
  cbn [fold_left]. change (lex_step (LRun (LStr acc) out) 92) with (LRun (LEsc acc) out).
  change (lex_step (LRun (LEsc acc) out) 117) with (LRun (LUni acc 4 0) out).
  rewrite !lex_uni_more, lex_uni_last by (apply N.mod_lt; discriminate).
  now rewrite hex4.
Qed.

Lemma lex_raw acc out c :
  32 <= c -> c <> 34 -> c <> 92 ->
  lex_step (LRun (LStr acc) out) c = LRun (LStr (c :: acc)) out.
Proof.
  intros H32 H34 H92. simpl.
  apply N.eqb_neq in H34, H92. rewrite H34, H92.
  replace (c <? 32) with false; [reflexivity|].
  symmetry. apply N.ltb_ge. exact H32.
Qed.

Lemma lex_quote_unit acc out c :
  is_lead c = false -> is_trail c = false ->
  lex_run (LRun (LStr acc) out) (quote_unit c) = LRun (LStr (c :: acc)) out.
Proof.
  intros _ _. unfold quote_unit.
  repeat match goal with
         | |- context [if ?x =? ?n then _ else _] =>
             destruct (N.eqb_spec x n); [subst; reflexivity|]
         end.
  destruct (N.ltb_spec c 32).
  - apply lex_unicode_escape. lia.
  - unfold lex_run. simpl fold_left. now apply lex_raw.
Qed.

Lemma is_lead_bounds c : is_lead c = true -> 55296 <= c /\ c <= 56319.
Proof.
  unfold is_lead. intros H. apply andb_true_iff in H as [H1 H2].
  apply N.leb_le in H1, H2. now split.
Qed.

Lemma is_trail_bounds c : is_trail c = true -> 56320 <= c /\ c <= 57343.
Proof.
  unfold is_trail. intros H. apply andb_true_iff in H as [H1 H2].
  apply N.leb_le in H1, H2. now split.
Qed.

Lemma lex_quote_body_bounded n :
  forall s acc out, (List.length s <= n)%nat ->
  lex_run (LRun (LStr acc) out) (quote_body s) = LRun (LStr (rev s ++ acc)) out.
Proof.
  induction n as [|n IH]; intros [|c rest] acc out Hlen; simpl in Hlen;
    try reflexivity; try lia.
  assert (Hone : forall esc,
             lex_run (LRun (LStr acc) out) esc = LRun (LStr (c :: acc)) out ->
             lex_run (LRun (LStr acc) out) (esc ++ quote_body rest)
             = LRun (LStr (rev (c :: rest) ++ acc)) out).
  { intros esc Hesc. rewrite lex_run_app, Hesc, IH by lia.
    simpl. now rewrite <- app_assoc. }
  cbn [quote_body].
  destruct (is_lead c) eqn:Hlead.
  - apply is_lead_bounds in Hlead.
    destruct rest as [|d rest'].
    + apply lex_unicode_escape. lia.
    + destruct (is_trail d) eqn:Htrail.
      * apply is_trail_bounds in Htrail.
        rewrite !lex_run_cons, !lex_raw by lia.
        rewrite IH by (simpl in Hlen; lia).
        simpl. now rewrite <- !app_assoc.
      * apply Hone, lex_unicode_escape. lia.
  - destruct (is_trail c) eqn:Htrail.
    + apply is_trail_bounds in Htrail. apply Hone, lex_unicode_escape. lia.
    + now apply Hone, lex_quote_unit.
Qed.

Lemma lex_quote out s :
  lex_run (LRun LNormal out) (quote s) = LRun LNormal (TString s :: out).
Proof.
  unfold quote. rewrite lex_run_app. change (lex_run (LRun LNormal out) [34])
    with (LRun (LStr []) out).
  rewrite lex_run_app, (lex_quote_body_bounded (List.length s)) by lia.
  rewrite app_nil_r. unfold lex_run. simpl. now rewrite rev_involutive.
Qed.

Lemma join_cons sep p ps :
  join sep (p :: ps) = p ++ flat_map (fun q => sep ++ q) ps.
Proof.
  revert p; induction ps as [|q ps IH]; intros p; simpl.
  - now rewrite app_nil_r.
  - rewrite <- app_assoc. do 2 f_equal. apply IH.
Qed.

Lemma lexes_app a b ta tb : lexes a ta -> lexes b tb -> lexes (a ++ b) (ta ++ tb).
Proof.
  intros Ha Hb out. rewrite lex_run_app, Ha, Hb, rev_app_distr.
  now rewrite app_assoc.
Qed.

Lemma lexes_ws ind : forallb is_json_ws ind = true -> lexes ind [].
Proof. intros H out. now apply lex_ws. Qed.

Lemma lexes_quote s : lexes (quote s) [TString s].
Proof. intros out. apply lex_quote. Qed.

Lemma lexes_items (A : Type) (ser : A -> jsstring) (tok : A -> list token)
    sep xs :
  lexes sep [TComma] ->
  Forall (fun x => lexes (ser x) (tok x)) xs ->
  lexes (flat_map (fun q => sep ++ q) (map ser xs))
        (flat_map (fun y => TComma :: tok y) xs).
Proof.
  intros Hsep Hxs. induction Hxs as [|x xs Hx _ IH]; simpl.
  - intros out. reflexivity.
  - rewrite <- app_assoc.
    change (TComma :: tok x ++ flat_map (fun y => TComma :: tok y) xs)
      with ([TComma] ++ tok x ++ flat_map (fun y => TComma :: tok y) xs).
    auto using lexes_app.
Qed.

Lemma ws_indent ind : forallb is_json_ws ind = true ->
  forallb is_json_ws (ind ++ gap) = true.
Proof. intros H. rewrite forallb_app, H. reflexivity. Qed.

Lemma lexes_separator ind : forallb is_json_ws ind = true ->
  lexes ([44; 10] ++ ind) [TComma].
Proof.
  intros H. change [TComma] with ([TComma] ++ []).
  apply lexes_app; [intros out; reflexivity | now apply lexes_ws].
Qed.

Ltac lexes_seq :=
  lazymatch goal with
  | |- lexes (_ ++ _) (_ ++ _) => apply lexes_app; [|lexes_seq]
  | |- _ => idtac
  end.

Lemma lexes_serialize v : forall ind,
  forallb is_json_ws ind = true -> lexes (serialize ind v) (tokens v).
Proof.
  induction v as [| [|] | s | items IH | members IH] using json_nested_ind;
    intros ind Hind; try (intros out; reflexivity).
  - apply lexes_quote.
  - destruct items as [|x xs]; [intros out; reflexivity|].
    inversion IH as [|? ? Hx Hxs]; subst.
    cbn [serialize tokens map]. rewrite join_cons.
    rewrite <- (app_assoc (serialize _ x)).
    change (TLBracket :: tokens x ++ ?r ++ [TRBracket])
      with ([TLBracket] ++ [] ++ tokens x ++ r ++ [] ++ [] ++ [TRBracket]).
    lexes_seq.
    + intros out; reflexivity.
    + now apply lexes_ws, ws_indent.
    + now apply Hx, ws_indent.
    + apply lexes_items.
      * now apply lexes_separator, ws_indent.
      * eapply Forall_impl; [|exact Hxs]. intros y Hy. now apply Hy, ws_indent.
    + intros out; reflexivity.
    + now apply lexes_ws.
    + intros out; reflexivity.
  - destruct members as [|[k x] ms]; [intros out; reflexivity|].
    inversion IH as [|? ? Hx Hxs]; subst. simpl in Hx.
    cbn [serialize tokens map fst snd]. rewrite join_cons.
    rewrite <- !(app_assoc (quote k)), <- !(app_assoc [58; 32]),
      <- !(app_assoc (serialize _ x)).
    change (TLBrace :: TString k :: TColon :: tokens x ++ ?r ++ [TRBrace])
      with ([TLBrace] ++ [] ++ [TString k] ++ [TColon] ++ tokens x ++ r
              ++ [] ++ [] ++ [TRBrace]).
    lexes_seq.
    + intros out; reflexivity.
    + now apply lexes_ws, ws_indent.
    + apply lexes_quote.
    + intros out; reflexivity.
    + now apply Hx, ws_indent.
    + apply (lexes_items _
               (fun kv => quote (fst kv) ++ [58; 32] ++ serialize (ind ++ gap) (snd kv))
               (fun kv => TString (fst kv) :: TColon :: tokens (snd kv))).
      * now apply lexes_separator, ws_indent.
      * eapply Forall_impl; [|exact Hxs]. intros [k' y] Hy. cbn [fst snd] in *.
        change (TString k' :: TColon :: tokens y)
          with ([TString k'] ++ [TColon] ++ tokens y).
        lexes_seq.
        -- apply lexes_quote.
        -- intros out; reflexivity.
        -- now apply Hy, ws_indent.
    + intros out; reflexivity.
    + now apply lexes_ws.
    + intros out; reflexivity.
Qed.

(** *** The text goes through the file as it is *)

Lemma passes_nil : passes [].
Proof. intros t. reflexivity. Qed.

Lemma passes_app a b : passes a -> passes b -> passes (a ++ b).
Proof. intros Ha Hb t. now rewrite <- !app_assoc, Ha, Hb. Qed.

Lemma passes_unit c : is_surrogate c = false -> passes [c].
Proof.
  unfold is_surrogate. intros H. apply orb_false_iff in H as [Hl Ht].
  intros t. simpl. now rewrite Hl, Ht.
Qed.

Lemma passes_cons c a : is_surrogate c = false -> passes a -> passes (c :: a).
Proof. intros Hc Ha. apply (passes_app [c] a); [now apply passes_unit | exact Ha]. Qed.

Lemma passes_plain a : forallb (fun c => negb (is_surrogate c)) a = true -> passes a.
Proof.
  induction a as [|c a IH]; simpl; [intros _; apply passes_nil|].
  intros H. apply andb_true_iff in H as [Hc Ha].
  apply passes_cons; [now apply negb_true_iff | now apply IH].
Qed.

Lemma passes_pair c d : is_lead c = true -> is_trail d = true -> passes [c; d].
Proof. intros Hc Hd t. simpl. now rewrite Hc, Hd. Qed.

Lemma small_not_surrogate c : c < 55296 -> is_surrogate c = false.
Proof.
  intros H. unfold is_surrogate, is_lead, is_trail.
  replace (55296 <=? c) with false by (symmetry; apply N.leb_gt; lia).
  replace (56320 <=? c) with false by (symmetry; apply N.leb_gt; lia).
  reflexivity.
Qed.

Lemma hex_digit_small d : d < 16 -> hex_digit d < 55296.
Proof. intros H. unfold hex_digit. destruct (d <? 10); lia. Qed.

Lemma passes_unicode_escape c : passes (unicode_escape c).
Proof.
  unfold unicode_escape.
  repeat (apply passes_cons;
          [apply small_not_surrogate;
           first [apply hex_digit_small, N.mod_lt; discriminate | reflexivity]|]).
  apply passes_nil.
Qed.

Lemma passes_quote_unit c :
  is_lead c = false -> is_trail c = false -> passes (quote_unit c).
Proof.
  intros Hl Ht. unfold quote_unit.
  repeat match goal with
         | |- context [if ?x =? ?n then _ else _] =>
             destruct (N.eqb_spec x n);
             [apply passes_plain; reflexivity|]
         end.
  destruct (c <? 32); [apply passes_unicode_escape|].
  apply passes_unit. unfold is_surrogate. now rewrite Hl, Ht.
Qed.

Lemma passes_quote_body_bounded n : forall s,
  (List.length s <= n)%nat -> passes (quote_body s).
Proof.
  induction n as [|n IH]; intros [|c rest] Hlen; simpl in Hlen;
    try apply passes_nil; try lia.
  cbn [quote_body]. destruct (is_lead c) eqn:Hlead.
  - destruct rest as [|d rest'].
    + apply passes_unicode_escape.
    + destruct (is_trail d) eqn:Htrail.
      * apply (passes_app [c; d]); [now apply passes_pair|].
        apply IH. simpl in Hlen. lia.
      * apply passes_app; [apply passes_unicode_escape | apply IH; lia].
  - destruct (is_trail c) eqn:Htrail.
    + apply passes_app; [apply passes_unicode_escape | apply IH; lia].
    + apply passes_app; [now apply passes_quote_unit | apply IH; lia].
Qed.

Lemma passes_quote s : passes (quote s).
Proof.
  unfold quote. apply (passes_app [34]); [now apply passes_plain|].
  apply passes_app; [apply (passes_quote_body_bounded (List.length s)); lia|].
  now apply passes_plain.
Qed.

Lemma passes_ws ind : forallb is_json_ws ind = true -> passes ind.
Proof.
  intros H. apply passes_plain. rewrite forallb_forall in *.
  intros c Hc. apply H in Hc. apply negb_true_iff, small_not_surrogate.
  unfold is_json_ws in Hc.
  repeat (apply orb_true_iff in Hc as [Hc|Hc]); apply N.eqb_eq in Hc; lia.
Qed.

Lemma passes_items (A : Type) (ser : A -> jsstring) sep xs :
  passes sep -> Forall (fun x => passes (ser x)) xs ->
  passes (flat_map (fun q => sep ++ q) (map ser xs)).
Proof.
  intros Hsep Hxs. induction Hxs as [|x xs Hx _ IH]; simpl.
  - apply passes_nil.
  - rewrite <- app_assoc. auto using passes_app.
Qed.

Ltac passes_seq :=
  lazymatch goal with
  | |- passes (_ ++ _) => apply passes_app; [|passes_seq]
  | |- _ => idtac
  end.

Lemma passes_serialize v : forall ind,
  forallb is_json_ws ind = true -> passes (serialize ind v).
Proof.
  induction v as [| [|] | s | items IH | members IH] using json_nested_ind;
    intros ind Hind; try (now apply passes_plain).
  - apply passes_quote.
  - destruct items as [|x xs]; [now apply passes_plain|].
    inversion IH as [|? ? Hx Hxs]; subst.
    assert (Hind' : forallb is_json_ws (ind ++ gap) = true)
      by (now rewrite forallb_app, Hind).
    cbn [serialize map]. rewrite join_cons.
    rewrite <- (app_assoc (serialize _ x)).
    passes_seq; try (now apply passes_plain); try (now apply passes_ws).
    + now apply Hx.
    + apply passes_items.
      * apply (passes_app [44; 10]); [now apply passes_plain | now apply passes_ws].
      * eapply Forall_impl; [|exact Hxs]. intros y Hy. now apply Hy.
  - destruct members as [|[k x] ms]; [now apply passes_plain|].
    inversion IH as [|? ? Hx Hxs]; subst. simpl in Hx.
    assert (Hind' : forallb is_json_ws (ind ++ gap) = true)
      by (now rewrite forallb_app, Hind).
    cbn [serialize map fst snd]. rewrite join_cons.
    rewrite <- !(app_assoc (quote k)), <- !(app_assoc [58; 32]),
      <- !(app_assoc (serialize _ x)).
    passes_seq; try (now apply passes_plain); try (now apply passes_ws).
    + apply passes_quote.
    + now apply Hx.
    + apply (passes_items _
               (fun kv => quote (fst kv) ++ [58; 32] ++ serialize (ind ++ gap) (snd kv))).
      * apply (passes_app [44; 10]); [now apply passes_plain | now apply passes_ws].
      * eapply Forall_impl; [|exact Hxs]. intros [k' y] Hy. cbn [fst snd] in *.
        passes_seq; [apply passes_quote | now apply passes_plain | now apply Hy].
Qed.

Theorem JSON_stringify_well_formed v :
  to_well_formed (JSON_stringify v) = JSON_stringify v.
Proof.
  unfold JSON_stringify.
  rewrite <- (app_nil_r (serialize [] v)) at 1.
  rewrite (passes_serialize v [] eq_refl []). apply app_nil_r.
Qed.

(** *** Members in enumeration order are rebuilt as they were *)

Lemma has_key_cons k' v o k :
  has_key ((k', v) :: o) k = jsstring_eqb k' k || has_key o k.
Proof. unfold has_key. simpl. now destruct (jsstring_eqb k' k). Qed.

Lemma has_key_app a b k : has_key (a ++ b) k = has_key a k || has_key b k.
Proof.
  induction a as [|[k' v] a IH]; [reflexivity|].
  simpl app. now rewrite !has_key_cons, IH, orb_assoc.
Qed.

Lemma canonical_order_cons k v o :
  canonical_order ((k, v) :: o) = true <->
  forallb (fun kv => key_le k (fst kv)) o = true
  /\ has_key o k = false /\ canonical_order o = true.
Proof.
  simpl. rewrite !andb_true_iff, negb_true_iff. tauto.
Qed.

Lemma canonical_order_prefix a b :
  canonical_order (a ++ b) = true -> canonical_order a = true.
Proof.
  induction a as [|[k v] a IH]; [reflexivity|].
  simpl app. rewrite !canonical_order_cons, forallb_app, has_key_app.
  rewrite andb_true_iff, orb_false_iff. intros [[H1 _] [[H2 _] H3]]. auto.
Qed.

Lemma obj_insert_index_last i o k v :
  Forall (fun kv => exists j, array_index (fst kv) = Some j /\ j <= i) o ->
  obj_insert_index i o k v = o ++ [(k, v)].
Proof.
  induction 1 as [|[k' v'] o (j & Hj & Hle) _ IH]; [reflexivity|].
  simpl in *. rewrite Hj. apply N.leb_le in Hle. now rewrite Hle, IH.
Qed.

Lemma canonical_order_last o k v :
  canonical_order (o ++ [(k, v)]) = true ->
  has_key o k = false /\ Forall (fun kv => key_le (fst kv) k = true) o.
Proof.
  induction o as [|[k' v'] o IH]; [now split|].
  simpl app. rewrite canonical_order_cons, forallb_app, has_key_app.
  rewrite andb_true_iff, orb_false_iff.
  intros [[_ Hle] [[_ Hne] Hc]]. destruct (IH Hc) as [Hk Hall].
  simpl in Hle. rewrite andb_true_r in Hle.
  rewrite has_key_cons in Hne. simpl in Hne. rewrite orb_false_r in Hne.
  split.
  - rewrite has_key_cons, Hk, jsstring_eqb_sym, Hne. reflexivity.
  - constructor; assumption.
Qed.

Lemma obj_set_last o k v :
  canonical_order (o ++ [(k, v)]) = true -> obj_set o k v = o ++ [(k, v)].
Proof.
  intros H. apply canonical_order_last in H as [Hk Hall].
  unfold obj_set. rewrite Hk.
  destruct (array_index k) as [i|] eqn:Hi; [|reflexivity].
  apply obj_insert_index_last.
  eapply Forall_impl; [|exact Hall]. intros [k' v']. unfold key_le. simpl.
  rewrite Hi. destruct (array_index k') as [j|]; [|discriminate].
  intros Hle. apply N.leb_le in Hle. eauto.
Qed.

(** *** The tokens give back the value *)

Lemma parse_run_app st a b : parse_run st (a ++ b) = parse_run (parse_run st a) b.
Proof. apply fold_left_app. Qed.

Lemma tokens_head v : exists t ts, tokens v = t :: ts /\ t <> TRBracket.
Proof.
  destruct v as [| [|] | s | [|x xs] | [|[k x] ms]]; simpl;
    do 2 eexists; (split; [reflexivity | discriminate]).
Qed.

Lemma parse_arr_first stk v rest :
  parse_run (PArrFirst stk) (tokens v ++ rest)
  = parse_run (PValue (FArr [] :: stk)) (tokens v ++ rest).
Proof.
  destruct (tokens_head v) as (t & ts & -> & Ht). simpl.
  unfold parse_run. simpl. now destruct t.
Qed.

Lemma parse_items xs :
  Forall reparses xs -> forallb well_formed xs = true ->
  forall done stk rest,
    parse_run (PArrNext done stk)
      (flat_map (fun y => TComma :: tokens y) xs ++ TRBracket :: rest)
    = parse_run (deliver (JArray (rev done ++ xs)) stk) rest.
Proof.
  induction 1 as [|x xs Hx _ IH]; intros Hwf done stk rest.
  - simpl. now rewrite app_nil_r.
  - simpl in Hwf. apply andb_true_iff in Hwf as [Hwx Hwxs].
    cbn [flat_map app]. rewrite <- app_assoc.
    change (parse_run (PArrNext done stk) (TComma :: ?r))
      with (parse_run (PValue (FArr done :: stk)) r).
    rewrite (Hx Hwx). simpl deliver. rewrite IH by assumption.
    simpl. now rewrite <- app_assoc.
Qed.

Lemma parse_members ms :
  Forall (fun kv => reparses (snd kv)) ms ->
  forallb (fun kv => well_formed (snd kv)) ms = true ->
  forall done stk rest,
    canonical_order (done ++ ms) = true ->
    parse_run (PObjNext done stk)
      (flat_map (fun kv => TComma :: TString (fst kv) :: TColon :: tokens (snd kv)) ms
         ++ TRBrace :: rest)
    = parse_run (deliver (JObject (done ++ ms)) stk) rest.
Proof.
  induction 1 as [|[k x] ms Hx _ IH]; intros Hwf done stk rest Hc.
  - simpl. now rewrite app_nil_r.
  - simpl in Hwf. apply andb_true_iff in Hwf as [Hwx Hwxs].
    simpl in Hx. cbn [flat_map app fst snd]. rewrite <- app_assoc.
    change (parse_run (PObjNext done stk) (TComma :: TString k :: TColon :: ?r))
      with (parse_run (PValue (FObj done k :: stk)) r).
    rewrite (Hx Hwx). simpl deliver.
    change (done ++ (k, x) :: ms) with (done ++ [(k, x)] ++ ms) in *.
    rewrite app_assoc in *.
    rewrite obj_set_last by (eapply canonical_order_prefix; exact Hc).
    now apply IH.
Qed.

Lemma reparses_all v : reparses v.
Proof.
  induction v as [| [|] | s | items IH | members IH] using json_nested_ind;
    intros Hwf stk rest; try reflexivity.
  - destruct items as [|x xs]; [reflexivity|].
    inversion IH as [|? ? Hx Hxs]; subst.
    simpl in Hwf. apply andb_true_iff in Hwf as [Hwx Hwxs].
    cbn [tokens app]. rewrite <- !app_assoc.
    change (parse_run (PValue stk) (TLBracket :: ?r))
      with (parse_run (PArrFirst stk) r).
    rewrite parse_arr_first, (Hx Hwx). simpl deliver.
    simpl app. now rewrite parse_items.
  - destruct members as [|[k x] ms]; [reflexivity|].
    inversion IH as [|? ? Hx Hxs]; subst. simpl in Hx.
    cbn [well_formed] in Hwf. apply andb_true_iff in Hwf as [Hc Hwf].
    simpl in Hwf. apply andb_true_iff in Hwf as [Hwx Hwxs].
    cbn [tokens app]. rewrite <- !app_assoc.
    change (parse_run (PValue stk) (TLBrace :: TString k :: TColon :: ?r))
      with (parse_run (PValue (FObj [] k :: stk)) r).
    rewrite (Hx Hwx). simpl deliver.
    rewrite (obj_set_last [] k x)
      by (apply (canonical_order_prefix [(k, x)] ms); exact Hc).
    simpl app. now rewrite parse_members.
Qed.

Theorem JSON_parse_stringify v :
  well_formed v = true -> JSON_parse (JSON_stringify v) = Parsed v.
Proof.
  intros Hwf. unfold JSON_parse, JSON_stringify.
  rewrite (lexes_serialize v [] eq_refl []), app_nil_r, rev_involutive.
  unfold parse_tokens.
  rewrite <- (app_nil_r (tokens v)), (reparses_all v Hwf). reflexivity.
Qed.

(* ------------------------------------------------------------------ *)
(** ** What [JSON.parse] returns lists its members in enumeration order *)

Lemma key_le_trans a b c :
  key_le a b = true -> key_le b c = true -> key_le a c = true.
Proof.
  unfold key_le.
  destruct (array_index a), (array_index b), (array_index c);
    try reflexivity; try discriminate.
  rewrite !N.leb_le. lia.
Qed.

Lemma map_fst_obj_replace o k v : map fst (obj_replace o k v) = map fst o.
Proof.
  induction o as [|[k' v'] o IH]; [reflexivity|]. simpl.
  destruct (jsstring_eqb k' k); simpl; [reflexivity | now rewrite IH].
Qed.

Lemma has_key_keys o k :
  has_key o k = existsb (fun k' => jsstring_eqb k' k) (map fst o).
Proof.
  induction o as [|[k' v'] o IH]; [reflexivity|].
  now rewrite has_key_cons, IH.
Qed.

Lemma forallb_keys (f : jsstring -> bool) (o : fields) :
  forallb (fun kv => f (fst kv)) o = forallb f (map fst o).
Proof. induction o as [|kv o IH]; simpl; congruence. Qed.

Lemma canonical_order_keys o1 : forall o2,
  map fst o1 = map fst o2 -> canonical_order o1 = canonical_order o2.
Proof.
  induction o1 as [|[k1 v1] o1 IH]; intros [|[k2 v2] o2] H; try discriminate;
    [reflexivity|].
  simpl in H. injection H as -> H. simpl.
  rewrite (IH _ H), !has_key_keys, H. do 2 f_equal.
  rewrite !(forallb_keys (key_le k2)). now rewrite H.
Qed.

Lemma forallb_insert (f : jsstring * json -> bool) i o k v :
  forallb f (obj_insert_index i o k v) = f (k, v) && forallb f o.
Proof.
  induction o as [|[k' v'] o IH]; simpl; [reflexivity|].
  destruct (array_index k') as [j|]; [destruct (j <=? i)|]; simpl;
    try reflexivity.
  rewrite IH. now rewrite !andb_assoc, (andb_comm (f (k', v'))).
Qed.

Lemma has_key_insert i o k v k0 :
  has_key (obj_insert_index i o k v) k0 = jsstring_eqb k k0 || has_key o k0.
Proof.
  induction o as [|[k' v'] o IH]; cbn [obj_insert_index].
  - now rewrite has_key_cons.
  - destruct (array_index k') as [j|]; [destruct (j <=? i)|];
      rewrite ?has_key_cons; try reflexivity.
    rewrite IH.
    now rewrite !orb_assoc, (orb_comm (jsstring_eqb k' k0)).
Qed.

Lemma obj_insert_index_canonical i o k v :
  array_index k = Some i -> has_key o k = false ->
  canonical_order o = true ->
  canonical_order (obj_insert_index i o k v) = true.
Proof.
  intros Hi. induction o as [|[k' v'] o IH]; intros Hk Hc; [reflexivity|].
  rewrite has_key_cons in Hk. apply orb_false_iff in Hk as [Hne Hk].
  pose proof Hc as Hc0.
  apply canonical_order_cons in Hc as (Hle & Hk' & Hc).
  assert (Hfront : key_le k k' = true ->
                   canonical_order ((k, v) :: (k', v') :: o) = true).
  { intros Hkk. apply canonical_order_cons. repeat split.
    - simpl. rewrite Hkk. simpl. apply forallb_forall. intros x Hx.
      eapply key_le_trans; [exact Hkk|].
      rewrite forallb_forall in Hle. now apply Hle.
    - now rewrite has_key_cons, Hne, Hk.
    - exact Hc0. }
  simpl. destruct (array_index k') as [j|] eqn:Hj.
  - destruct (j <=? i) eqn:Hji.
    + apply canonical_order_cons. repeat split.
      * rewrite forallb_insert, Hle. simpl. unfold key_le. now rewrite Hj, Hi, Hji.
      * now rewrite has_key_insert, Hk', jsstring_eqb_sym, Hne.
      * now apply IH.
    + apply Hfront. unfold key_le. rewrite Hi, Hj. apply N.leb_le.
      apply N.leb_gt in Hji. lia.
  - apply Hfront. unfold key_le. now rewrite Hi, Hj.
Qed.

Lemma canonical_order_append o k v :
  array_index k = None -> has_key o k = false ->
  canonical_order o = true -> canonical_order (o ++ [(k, v)]) = true.
Proof.
  intros Hi. induction o as [|[k' v'] o IH]; intros Hk Hc; [reflexivity|].
  rewrite has_key_cons in Hk. apply orb_false_iff in Hk as [Hne Hk].
  apply canonical_order_cons in Hc as (Hle & Hk' & Hc).
  simpl app. apply canonical_order_cons. repeat split.
  - rewrite forallb_app, Hle. simpl. unfold key_le. rewrite Hi.
    now destruct (array_index k').
  - rewrite has_key_app, Hk', has_key_cons, jsstring_eqb_sym, Hne. reflexivity.
  - now apply IH.
Qed.

Lemma obj_set_canonical o k v :
  canonical_order o = true -> canonical_order (obj_set o k v) = true.
Proof.
  intros Hc. unfold obj_set. destruct (has_key o k) eqn:Hk.
  - rewrite (canonical_order_keys _ o); [exact Hc | apply map_fst_obj_replace].
  - destruct (array_index k) as [i|] eqn:Hi.
    + now apply obj_insert_index_canonical.
    + now apply canonical_order_append.
Qed.

Lemma forallb_replace (f : jsstring * json -> bool) o k v :
  f (k, v) = true ->
  forallb f o = true -> forallb f (obj_replace o k v) = true.
Proof.
  intros Hv. induction o as [|[k' v'] o IH]; simpl; [reflexivity|].
  intros H. apply andb_true_iff in H as [H1 H2].
  destruct (jsstring_eqb k' k) eqn:E; simpl.
  - apply jsstring_eqb_eq in E. subst. now rewrite Hv.
  - now rewrite H1, IH.
Qed.

Lemma obj_set_values o k v :
  well_formed v = true ->
  forallb (fun kv => well_formed (snd kv)) o = true ->
  forallb (fun kv => well_formed (snd kv)) (obj_set o k v) = true.
Proof.
  intros Hv Ho. unfold obj_set. destruct (has_key o k).
  - now apply forallb_replace.
  - destruct (array_index k).
    + rewrite forallb_insert. simpl. now rewrite Hv, Ho.
    + rewrite forallb_app, Ho. simpl. now rewrite Hv.
Qed.

Lemma obj_set_well_formed o k v :
  well_formed (JObject o) = true -> well_formed v = true ->
  well_formed (JObject (obj_set o k v)) = true.
Proof.
  cbn [well_formed]. rewrite !andb_true_iff. intros [Hc Ho] Hv.
  split; [now apply obj_set_canonical | now apply obj_set_values].
Qed.

Lemma has_key_delete o k k0 :
  has_key o k0 = false -> has_key (obj_delete o k) k0 = false.
Proof.
  induction o as [|[k' v'] o IH]; [reflexivity|].
  rewrite has_key_cons. intros H. apply orb_false_iff in H as [H1 H2].
  simpl. destruct (jsstring_eqb k' k); [now apply IH|].
  now rewrite has_key_cons, H1, IH.
Qed.

Lemma forallb_delete (f : jsstring * json -> bool) o k :
  forallb f o = true -> forallb f (obj_delete o k) = true.
Proof.
  induction o as [|[k' v'] o IH]; [reflexivity|]. simpl.
  intros H. apply andb_true_iff in H as [H1 H2].
  destruct (jsstring_eqb k' k); simpl; [now apply IH | now rewrite H1, IH].
Qed.

Lemma obj_delete_canonical o k :
  canonical_order o = true -> canonical_order (obj_delete o k) = true.
Proof.
  induction o as [|[k' v'] o IH]; [reflexivity|].
  intros Hc. apply canonical_order_cons in Hc as (Hle & Hk' & Hc).
  simpl. destruct (jsstring_eqb k' k); [now apply IH|].
  apply canonical_order_cons. repeat split.
  - now apply forallb_delete.
  - now apply has_key_delete.
  - now apply IH.
Qed.

Lemma obj_delete_well_formed o k :
  well_formed (JObject o) = true -> well_formed (JObject (obj_delete o k)) = true.
Proof.
  cbn [well_formed]. rewrite !andb_true_iff. intros [Hc Ho].
  split; [now apply obj_delete_canonical | now apply forallb_delete].
Qed.

Lemma obj_get_delete o k : obj_get (obj_delete o k) k = None.
Proof.
  induction o as [|[k' v'] o IH]; [reflexivity|]. simpl.
  destruct (jsstring_eqb k' k) eqn:E; [exact IH|]. simpl. now rewrite E.
Qed.


Lemma forallb_rev (A : Type) (f : A -> bool) l :
  forallb f (rev l) = forallb f l.
Proof.
  induction l as [|x l IH]; [reflexivity|]. simpl.
  rewrite forallb_app, IH. simpl. now rewrite andb_true_r, andb_comm.
Qed.

Lemma deliver_ok v stk :
  well_formed v = true -> forallb frame_ok stk = true ->
  state_ok (deliver v stk) = true.
Proof.
  intros Hv Hstk.
  destruct stk as [|[items|ms k] stk];
    cbn [deliver state_ok frame_ok forallb] in *.
  - exact Hv.
  - now rewrite Hv.
  - apply andb_true_iff in Hstk as [Hms Hstk].
    now rewrite obj_set_well_formed, Hstk.
Qed.

Lemma parse_value_token_ok stk t :
  forallb frame_ok stk = true -> state_ok (parse_value_token stk t) = true.
Proof.
  intros Hstk. destruct t; simpl; try reflexivity; try exact Hstk;
    now apply deliver_ok.
Qed.

Lemma parse_step_ok st t : state_ok st = true -> state_ok (parse_step st t) = true.
Proof.
  destruct st as [stk|stk|items stk|stk|ms stk|ms k stk|ms stk|v|];
    cbn [parse_step]; intros Hok; try reflexivity.
  - now apply parse_value_token_ok.
  - destruct t; try (now apply (parse_value_token_ok (FArr [] :: stk)));
      now apply deliver_ok.
  - simpl in Hok. apply andb_true_iff in Hok as [Hitems Hstk].
    destruct t; try reflexivity.
    + apply deliver_ok; [|exact Hstk]. simpl. now rewrite forallb_rev.
    + simpl. now rewrite Hitems, Hstk.
  - destruct t; try reflexivity; [now apply deliver_ok | exact Hok].
  - destruct t; try reflexivity. exact Hok.
  - destruct t; try reflexivity. exact Hok.
  - cbn [state_ok] in Hok. apply andb_true_iff in Hok as [Hms Hstk].
    destruct t; try reflexivity.
    + now apply deliver_ok.
    + cbn [state_ok]. now rewrite Hms, Hstk.
Qed.

Lemma parse_run_ok ts : forall st,
  state_ok st = true -> state_ok (parse_run st ts) = true.
Proof.
  induction ts as [|t ts IH]; intros st Hok; [exact Hok|].
  apply IH, parse_step_ok, Hok.
Qed.

Theorem JSON_parse_well_formed text v :
  JSON_parse text = Parsed v -> well_formed v = true.
Proof.
  unfold JSON_parse, parse_tokens.
  destruct (lex_run _ text) as [[] out| |]; try discriminate.
  pose proof (parse_run_ok (rev out) (PValue []) eq_refl) as Hok.
  destruct (parse_run _ _); try discriminate.
  intros H. injection H as ->. exact Hok.
Qed.

(* ------------------------------------------------------------------ *)
(** ** The two stores and the client factory *)

Ltac run :=
  cbv beta iota delta
    [bind ret throw process_exit unmodelled when get_state console_log
     console_error invoke createClient accessed parsed lift question
     mkdirSync_CONFIG_DIR Bun_write_CONFIG_FILE Bun_write_PROJECT_FILE
     rm_PROJECT_FILE withErrorHandling].

Lemma readConfig_state P s : snd (readConfig P s) = s.
Proof.
  unfold readConfig. run. destruct (config_file s) as [text|]; [|reflexivity].
  cbn. destruct (JSON_parse text); reflexivity.
Qed.

Lemma readConfig_returns P s config :
  fst (readConfig P s) = Returned config ->
  readConfig P s = (Returned config, s).
Proof.
  intros H. pose proof (readConfig_state P s) as Hs.
  destruct (readConfig P s) as [o s']. simpl in *. congruence.
Qed.

Lemma readConfig_well_formed P s config :
  fst (readConfig P s) = Returned config -> well_formed config = true.
Proof.
  unfold readConfig. run. destruct (config_file s) as [text|]; cbn.
  - destruct (JSON_parse text) eqn:E; cbn; try discriminate.
    intros H. injection H as <-. eapply JSON_parse_well_formed, E.
  - intros H. now injection H as <-.
Qed.

Lemma readConfig_after_write P config s :
  well_formed config = true ->
  readConfig P (snd (writeConfig config s))
  = (Returned config, snd (writeConfig config s)).
Proof.
  intros Hwf. unfold readConfig, writeConfig. run.
  destruct (config_dir s); cbn;
    rewrite JSON_stringify_well_formed, (JSON_parse_stringify config Hwf);
    reflexivity.
Qed.




Lemma getClient_returns P s key :
  resolveApiKeyWithConfig P s = (Returned key, s) ->
  getClient P s = (Returned key, add_client key s).
Proof. intros H. unfold getClient, bind. now rewrite H. Qed.

Lemma getClient_throws P s e :
  resolveApiKeyWithConfig P s = (Threw e, s) ->
  getClient P s = (Threw e, s).
Proof. intros H. unfold getClient, bind. now rewrite H. Qed.

Lemma resolve_from_config P s config :
  env_key_unset P ->
  fst (readConfig P s) = Returned config ->
  resolveApiKeyWithConfig P s
  = match get_member config (lit "apiKey") with
    | Accessed (Some key) =>
        if truthy (Some key) then (Returned key, s) else (Threw no_api_key, s)
    | Accessed None => (Threw no_api_key, s)
    | TypeError => (Threw (type_error P), s)
    end.
Proof.
  intros Henv Hcfg. apply readConfig_returns in Hcfg.
  unfold resolveApiKeyWithConfig.
  destruct Henv as [Henv|Henv]; rewrite Henv; unfold bind; rewrite Hcfg;
    (destruct (get_member config (lit "apiKey")) as [[key|]|];
     run; [destruct (truthy (Some key))|..]; reflexivity).
Qed.

(* ------------------------------------------------------------------ *)
(** ** The file collector *)

Lemma filter_filter (A : Type) (p q : A -> bool) l :
  filter p (filter q l) = filter (fun x => q x && p x) l.
Proof.
  induction l as [|x l IH]; [reflexivity|]. simpl.
  destruct (q x); simpl; [destruct (p x)|]; now rewrite IH.
Qed.

Lemma seen_has_true seen x y :
  seen_has seen x = true -> seen_has seen y = false -> jsstring_eqb y x = false.
Proof.
  intros Hx Hy. destruct (jsstring_eqb y x) eqn:E; [|reflexivity].
  apply jsstring_eqb_eq in E. congruence.
Qed.

Lemma unseen_skip seen x l :
  seen_has seen x = true -> unseen seen (x :: l) = unseen seen l.
Proof.
  intros Hx. unfold unseen. simpl. rewrite Hx. simpl.
  rewrite filter_filter. apply filter_ext. intros y.
  destruct (seen_has seen y) eqn:Hy; simpl; [apply andb_false_r|].
  now rewrite (seen_has_true seen x y Hx Hy).
Qed.

Lemma unseen_keep seen x l :
  seen_has seen x = false -> unseen seen (x :: l) = x :: unseen (x :: seen) l.
Proof.
  intros Hx. unfold unseen. simpl. rewrite Hx. simpl. f_equal.
  rewrite filter_filter. apply filter_ext. intros y.
  rewrite (jsstring_eqb_sym y x). now rewrite negb_orb.
Qed.

Lemma unseen_nil l : unseen [] l = dedupe l.
Proof.
  unfold unseen. generalize (dedupe l). intros d.
  induction d as [|x d IH]; simpl in *; congruence.
Qed.

Lemma collect_scan_names P found : forall files seen files' seen',
  collect_scan P found files seen = inr (files', seen') ->
  map name files' = map name files ++ unseen seen (filter (fun f => negb (excluded f)) found)
  /\ (Forall (read_back P) files -> Forall (read_back P) files').
Proof.
  induction found as [|file found IH]; intros files seen files' seen' H.
  - injection H as <- <-. split; [now rewrite app_nil_r | auto].
  - simpl in H. cbn [filter]. unfold excluded at 1.
    destruct (includes file (lit "node_modules/") || includes file (lit ".git/"));
      cbn [negb]; [now apply IH in H|].
    destruct (seen_has seen file) eqn:Hseen.
    + rewrite unseen_skip by assumption. now apply IH in H.
    + rewrite unseen_keep by assumption.
      destruct (read_text P file) as [e|text] eqn:Hread; [discriminate|].
      apply IH in H as [Hnames Hback]. split.
      * rewrite Hnames, map_app, <- app_assoc. reflexivity.
      * intros Hfiles. apply Hback, Forall_app. split; [exact Hfiles|].
        constructor; [exact Hread | constructor].
Qed.

Lemma collect_scan_app P a b files seen :
  collect_scan P (a ++ b) files seen
  = match collect_scan P a files seen with
    | inl e => inl e
    | inr (files', seen') => collect_scan P b files' seen'
    end.
Proof.
  revert files seen. induction a as [|file a IH]; intros files seen;
    [reflexivity|]. simpl.
  destruct (includes file (lit "node_modules/") || includes file (lit ".git/"));
    [apply IH|].
  destruct (seen_has seen file); [apply IH|].
  destruct (read_text P file); [reflexivity | apply IH].
Qed.

Lemma collect_patterns_scan P patterns : forall files seen,
  collect_patterns P patterns files seen
  = collect_scan P (flat_map (glob_scan P) patterns) files seen.
Proof.
  induction patterns as [|p patterns IH]; intros files seen; [reflexivity|].
  simpl. rewrite collect_scan_app.
  destruct (collect_scan P (glob_scan P p) files seen) as [e|[files' seen']];
    [reflexivity | apply IH].
Qed.

Lemma dedupe_incl l x : In x (dedupe l) -> In x l.
Proof.
  induction l as [|y l IH]; [auto|]. simpl. intros [H|H]; [auto|].
  apply filter_In in H as [H _]. auto.
Qed.

Lemma dedupe_NoDup l : NoDup (dedupe l).
Proof.
  induction l as [|x l IH]; simpl; constructor.
  - intros H. apply filter_In in H as [_ H].
    now rewrite jsstring_eqb_refl in H.
  - now apply NoDup_filter.
Qed.

Lemma collect_scan_total P found : forall files seen,
  (forall file, In file found -> exists text, read_text P file = inr text) ->
  exists r, collect_scan P found files seen = inr r.
Proof.
  induction found as [|file found IH]; intros files seen Hread; simpl.
  - eauto.
  - assert (Hrest : forall f, In f found -> exists text, read_text P f = inr text)
      by (intros f Hf; apply Hread; now right).
    destruct (includes file (lit "node_modules/") || includes file (lit ".git/"));
      [now apply IH|].
    destruct (seen_has seen file); [now apply IH|].
    destruct (Hread file (or_introl eq_refl)) as [text ->]. now apply IH.
Qed.

Lemma collectFiles_total P patterns :
  (forall file, In file (flat_map (glob_scan P) patterns) ->
                exists text, read_text P file = inr text) ->
  exists files, collectFiles P patterns = inr files.
Proof.
  intros Hread. unfold collectFiles. rewrite collect_patterns_scan.
  destruct (collect_scan_total P _ [] [] Hread) as [[files seen] ->]. eauto.
Qed.

(* ------------------------------------------------------------------ *)
(** ** The handlers *)

Lemma type_is_other e t t' :
  type_is e t = true -> jsstring_eqb (lit t) (lit t') = false ->
  type_is e t' = false.
Proof.
  unfold type_is. destruct (error_type e) as [s|]; [|discriminate].
  intros H Hne. apply jsstring_eqb_eq in H. now subst.
Qed.

Lemma report_not_found e :
  type_is e "not_found_error" = true ->
  report e = lit "Not found: " ++ template_string (error_message e).
Proof.
  intros H. unfold report.
  rewrite (type_is_other e _ "unauthorized_error" H eq_refl). now rewrite H.
Qed.

Lemma login_rejected P s e :
  user_get P (JString (trim (answer P))) = inl e ->
  fst (login P s) = Exited 1
  /\ config_file (snd (login P s)) = config_file s
  /\ config_dir (snd (login P s)) = config_dir s.
Proof.
  intros H. unfold login, login_action. run.
  destruct (trim (answer P)) as [|c key] eqn:Hkey; cbn [nonempty negb]; run.
  - cbn. repeat split.
  - rewrite H. cbn. repeat split.
Qed.

(** The accepted key is stored next to what the config held. *)
Lemma login_accepted P s c key user o :
  trim (answer P) = c :: key ->
  user_get P (JString (c :: key)) = inr user ->
  fst (readConfig P s) = Returned (JObject o) ->
  fst (login P s) = Returned tt
  /\ config_dir (snd (login P s)) = true
  /\ config_file (snd (login P s))
     = Some (JSON_stringify
               (JObject (obj_set o (lit "apiKey") (JString (c :: key))))).
Proof.
  intros Hkey Hget Hread.
  assert (Hcfg : forall s1, config_file s1 = config_file s ->
                 readConfig P s1 = (Returned (JObject o), s1)).
  { intros s1 Hs1. revert Hread. unfold readConfig. run. rewrite Hs1.
    destruct (config_file s) as [text|]; cbn.
    - destruct (JSON_parse text); cbn; congruence.
    - congruence. }
  unfold login, login_action, withErrorHandling, bind.
  cbv beta iota delta [question]. rewrite Hkey. cbn [nonempty negb when ret].
  cbv beta iota delta [createClient invoke]. rewrite Hget.
  rewrite Hcfg by reflexivity. cbn [set_member accessed ret].
  unfold writeConfig. run. cbn [config_dir].
  destruct (config_dir s) eqn:E; cbn [negb fst snd config_dir config_file];
    rewrite JSON_stringify_well_formed; auto.
Qed.

(* ------------------------------------------------------------------ *)
(** ** Credential resolution *)




(* ------------------------------------------------------------------ *)
(** ** The error wrapper *)

(** C2 as stated fails where the message of the service does not name
    the chat: [chat delete missing_id] prints that message after
    [Not found: ], and the identifier is nowhere in the line. *)
Lemma not_found_counterexample :
  fst (chat_delete missing_chat_platform (lit "missing_id") fresh_state)
  = Exited 1
  /\ stderr (snd (chat_delete missing_chat_platform (lit "missing_id")
                    fresh_state))
     = [lit "Not found: Chat not found"]
  /\ includes (lit "Not found: Chat not found") (lit "missing_id") = false.
Proof. repeat split. Qed.

(** C2, amended. Whatever handler [withErrorHandling] wraps, when it
    throws an error whose [error.type] is [not_found_error], the wrapper
    prints [Not found: ] followed by [error.error.message] as the service
    worded it, adding no identifier of its own, and the process exits
    with code 1; so does [chat delete] when the service answers the
    deletion with such an error. *)
Theorem not_found_message P :
  (forall fn s e s',
      fn s = (Threw e, s') ->
      type_is e "not_found_error" = true ->
      withErrorHandling fn s
      = (Exited 1,
         say_error (lit "Not found: " ++ template_string (error_message e)) s'))
  /\ (forall chatId s client s' e,
        getClient P s = (Returned client, s') ->
        chats_delete P client chatId = inl e ->
        type_is e "not_found_error" = true ->
        fst (chat_delete P chatId s) = Exited 1
        /\ stderr (snd (chat_delete P chatId s))
           = stderr s'
               ++ [lit "Not found: " ++ template_string (error_message e)]).
Proof.
  assert (Hwrap : forall fn s e s',
             fn s = (Threw e, s') ->
             type_is e "not_found_error" = true ->
             withErrorHandling fn s
             = (Exited 1,
                say_error
                  (lit "Not found: " ++ template_string (error_message e)) s')).
  { intros fn s e s' Hfn Htype. unfold withErrorHandling. rewrite Hfn.
    now rewrite (report_not_found e Htype). }
  split; [exact Hwrap|].
  intros chatId s client s' e Hclient Hdelete Htype.
  unfold chat_delete.
  rewrite (Hwrap _ s e (snd (invoke (ChatsDelete client chatId)
                               (inl e : thrown + json) s'))).
  - split; reflexivity.
  - unfold chat_delete_action, bind. rewrite Hclient, Hdelete. reflexivity.
  - exact Htype.
Qed.

(** C2 at [chat delete missing_id], the service having no such chat. *)
Lemma not_found_message_witness :
  fst (chat_delete missing_chat_platform (lit "missing_id") fresh_state)
  = Exited 1
  /\ stderr (snd (chat_delete missing_chat_platform (lit "missing_id")
                    fresh_state))
     = stderr (add_client (JString (lit "key")) fresh_state)
         ++ [lit "Not found: "
               ++ template_string
                    (error_message (not_found (lit "Chat not found")))].
Proof.
  apply (proj2 (not_found_message missing_chat_platform)
           (lit "missing_id") fresh_state (JString (lit "key"))
           (add_client (JString (lit "key")) fresh_state)
           (not_found (lit "Chat not found")));
    reflexivity.
Defined.

(* ------------------------------------------------------------------ *)
(** ** [chat init] *)

(** C3. When the collected file list is empty, [chat init] exits with
    code 1 having constructed no client and invoked no remote
    operation: all it did was to print one line on the error stream. *)
Theorem chat_init_no_files P patterns opts s :
  collectFiles P patterns = inr [] ->
  fst (chat_init P patterns opts s) = Exited 1
  /\ clients (snd (chat_init P patterns opts s)) = clients s
  /\ requests (snd (chat_init P patterns opts s)) = requests s
  /\ (exists line, snd (chat_init P patterns opts s) = say_error line s).
Proof.
  intros H. unfold chat_init, chat_init_action. rewrite H.
  destruct patterns; run; cbn; repeat split; eexists; reflexivity.
Qed.

(** C3 on an empty tree. *)
Lemma chat_init_no_files_witness :
  collectFiles quiet_platform [lit "src/**/*.ts"] = inr []
  /\ fst (chat_init quiet_platform [lit "src/**/*.ts"] plain_init_opts
            fresh_state) = Exited 1
  /\ clients (snd (chat_init quiet_platform [lit "src/**/*.ts"]
                     plain_init_opts fresh_state)) = clients fresh_state
  /\ requests (snd (chat_init quiet_platform [lit "src/**/*.ts"]
                      plain_init_opts fresh_state)) = requests fresh_state
  /\ (exists line,
         snd (chat_init quiet_platform [lit "src/**/*.ts"] plain_init_opts
                fresh_state) = say_error line fresh_state).
Proof.
  split; [reflexivity|].
  apply (chat_init_no_files quiet_platform [lit "src/**/*.ts"]
           plain_init_opts fresh_state). reflexivity.
Defined.

(* ------------------------------------------------------------------ *)
(** ** [login] and [logout] *)

(** C4. [login] changes the config file or creates its directory only
    if the service accepted the typed key; and whenever the service
    rejects it, the command exits with code 1 and file and directory are
    as they were. *)
Theorem login_guarded P s :
  (config_file (snd (login P s)) <> config_file s
   \/ config_dir (snd (login P s)) <> config_dir s ->
   exists user, user_get P (JString (trim (answer P))) = inr user)
  /\ (forall e, user_get P (JString (trim (answer P))) = inl e ->
      fst (login P s) = Exited 1
      /\ config_file (snd (login P s)) = config_file s
      /\ config_dir (snd (login P s)) = config_dir s).
Proof.
  split; [|intros e; apply login_rejected].
  destruct (user_get P (JString (trim (answer P)))) as [e|user] eqn:Hget.
  - destruct (login_rejected P s e Hget) as (_ & Hf & Hd).
    intros [H|H]; contradiction.
  - eauto.
Qed.

(** C4 where the service turns the key down, a key being stored. *)
Lemma login_guarded_witness :
  fst (login bad_key_platform (logged_in (lit "stored"))) = Exited 1
  /\ config_file (snd (login bad_key_platform (logged_in (lit "stored"))))
     = config_file (logged_in (lit "stored"))
  /\ config_dir (snd (login bad_key_platform (logged_in (lit "stored"))))
     = config_dir (logged_in (lit "stored")).
Proof.
  apply (proj2 (login_guarded bad_key_platform (logged_in (lit "stored")))
           unauthorized).
  reflexivity.
Defined.

(** C10. When the typed line trims to the empty string, [login] prints
    [API key cannot be empty] on the error stream and exits with code 1;
    no client was constructed, no remote operation invoked, and the
    config file and directory are as they were. *)
Theorem login_empty_key P s :
  trim (answer P) = [] ->
  fst (login P s) = Exited 1
  /\ stderr (snd (login P s)) = stderr s ++ [lit "API key cannot be empty"]
  /\ requests (snd (login P s)) = requests s
  /\ clients (snd (login P s)) = clients s
  /\ config_file (snd (login P s)) = config_file s
  /\ config_dir (snd (login P s)) = config_dir s.
Proof.
  intros H. unfold login, login_action. run. rewrite H. cbn [nonempty negb].
  run. cbn. repeat split.
Qed.

(** C10 at a line of blanks. *)
Lemma login_empty_key_witness :
  trim (answer (with_answer (lit "   ") quiet_platform)) = []
  /\ fst (login (with_answer (lit "   ") quiet_platform) fresh_state)
     = Exited 1.
Proof.
  split; [reflexivity|].
  apply (login_empty_key (with_answer (lit "   ") quiet_platform) fresh_state).
  reflexivity.
Defined.




(* ------------------------------------------------------------------ *)
(** ** The two stores *)

(** C5. For every config that holds an API key string, [readConfig]
    after [writeConfig] returns a config with that very string as its
    [apiKey]. A config is a value whose objects list their members in
    enumeration order, as every object of the language does. *)
Theorem config_round_trip P config key s :
  well_formed config = true ->
  get_member config (lit "apiKey") = Accessed (Some (JString key)) ->
  exists stored,
    (writeConfig config ;; readConfig P) s
    = (Returned stored, snd (writeConfig config s))
    /\ get_member stored (lit "apiKey") = Accessed (Some (JString key)).
Proof.
  intros Hwf Hkey. exists config. split; [|exact Hkey].
  unfold bind at 1.
  assert (Hw : writeConfig config s = (Returned tt, snd (writeConfig config s))).
  { unfold writeConfig. run. destruct (config_dir s); reflexivity. }
  rewrite Hw at 1. now apply readConfig_after_write.
Qed.

(** C5 at a key with a quote, a backslash, a line feed and a lone
    surrogate in it. *)
Lemma config_round_trip_witness :
  exists stored,
    (writeConfig
       (JObject [(lit "apiKey", JString [118; 49; 58; 34; 92; 10; 55357])]) ;;
     readConfig quiet_platform) fresh_state
    = (Returned stored,
       snd (writeConfig
              (JObject
                 [(lit "apiKey", JString [118; 49; 58; 34; 92; 10; 55357])])
              fresh_state))
    /\ get_member stored (lit "apiKey")
       = Accessed (Some (JString [118; 49; 58; 34; 92; 10; 55357])).
Proof.
  apply (config_round_trip quiet_platform
           (JObject [(lit "apiKey", JString [118; 49; 58; 34; 92; 10; 55357])])
           [118; 49; 58; 34; 92; 10; 55357] fresh_state);
    reflexivity.
Defined.

(** C6. [readProjectLink] after [writeProjectLink] returns the object
    whose only member is the project id written; after
    [removeProjectLink] it returns [null]; and [removeProjectLink]
    changes nothing when there is no marker file. *)
Theorem project_link_round_trip P projectId s :
  (writeProjectLink projectId ;; readProjectLink P) s
  = (Returned (JObject [(lit "projectId", JString projectId)]),
     snd (writeProjectLink projectId s))
  /\ (removeProjectLink ;; readProjectLink P) s
     = (Returned JNull, snd (removeProjectLink s))
  /\ (project_file s = None -> removeProjectLink s = (Returned tt, s)).
Proof.
  split; [|split].
  - unfold writeProjectLink, readProjectLink. run. cbn [project_file].
    now rewrite JSON_stringify_well_formed, JSON_parse_stringify.
  - unfold removeProjectLink, readProjectLink. run.
    destruct (project_file s) eqn:E; cbn; [reflexivity|]. now rewrite E.
  - intros H. unfold removeProjectLink. run. now rewrite H.
Qed.

(** C6 in a directory without a marker file. *)
Lemma project_link_round_trip_witness :
  project_file fresh_state = None
  /\ removeProjectLink fresh_state = (Returned tt, fresh_state).
Proof.
  split; [reflexivity|].
  apply (proj2 (proj2 (project_link_round_trip quiet_platform
                         (lit "proj_123") fresh_state))).
  reflexivity.
Defined.

(* ------------------------------------------------------------------ *)
(** ** [collectFiles] *)

(** C7. In the list [collectFiles] returns, no name contains
    [node_modules/] or [.git/], hence none has either directory as a
    segment; no name occurs twice; and the names are, in order, the
    scanned paths of all patterns that are not excluded, each where it
    first occurs. Each content is what reading the name gave. *)
Theorem collectFiles_names P patterns files :
  collectFiles P patterns = inr files ->
  Forall (fun f => includes (name f) (lit "node_modules/") = false
                   /\ includes (name f) (lit ".git/") = false
                   /\ has_dir_segment (lit "node_modules") (name f) = false
                   /\ has_dir_segment (lit ".git") (name f) = false) files
  /\ NoDup (map name files)
  /\ map name files
     = dedupe (filter (fun file => negb (excluded file))
                 (flat_map (glob_scan P) patterns))
  /\ Forall (read_back P) files.
Proof.
  unfold collectFiles. rewrite collect_patterns_scan.
  destruct (collect_scan P _ [] []) as [e|[files' seen']] eqn:Hscan;
    [discriminate|].
  intros H. injection H as ->.
  apply collect_scan_names in Hscan as [Hnames Hback].
  simpl in Hnames. rewrite unseen_nil in Hnames.
  assert (Hallowed : forall f, In f files -> excluded (name f) = false).
  { intros f Hf. apply (in_map name) in Hf. rewrite Hnames in Hf.
    apply dedupe_incl, filter_In in Hf as [_ Hf].
    now apply negb_true_iff in Hf. }
  repeat split.
  - apply Forall_forall. intros f Hf. apply Hallowed in Hf.
    unfold excluded in Hf. apply orb_false_iff in Hf as [Hn Hg].
    repeat split; try assumption.
    + destruct (has_dir_segment (lit "node_modules") (name f)) eqn:E;
        [|reflexivity].
      apply segment_includes in E. change (lit "node_modules" ++ [47])
        with (lit "node_modules/") in E. congruence.
    + destruct (has_dir_segment (lit ".git") (name f)) eqn:E; [|reflexivity].
      apply segment_includes in E. change (lit ".git" ++ [47])
        with (lit ".git/") in E. congruence.
  - rewrite Hnames. apply dedupe_NoDup.
  - exact Hnames.
  - now apply Hback.
Qed.

(** C7 on a tree where the pattern, given twice, meets a dependency and
    the repository metadata. *)
Lemma collectFiles_names_witness :
  collectFiles sample_tree [lit "**/*.ts"; lit "**/*.ts"]
  = inr [ {| name := lit "src/index.ts"; content := [] |};
          {| name := lit "src/files.ts"; content := [] |} ]
  /\ NoDup [lit "src/index.ts"; lit "src/files.ts"].
Proof.
  split; [reflexivity|].
  apply (proj1 (proj2 (collectFiles_names sample_tree
                         [lit "**/*.ts"; lit "**/*.ts"]
                         [ {| name := lit "src/index.ts"; content := [] |};
                           {| name := lit "src/files.ts"; content := [] |} ]
                         eq_refl))).
Defined.

(* ------------------------------------------------------------------ *)
(** ** [chat list] *)




(* ------------------------------------------------------------------ *)
(** ** More about the handlers: what they leave alone *)

Create HintDb frame.

Lemma keeps_ret (A : Type) (a : A) : keeps_stores (ret a).
Proof. intros s. reflexivity. Qed.

Lemma keeps_throw (A : Type) e : keeps_stores (@throw A e).
Proof. intros s. reflexivity. Qed.

Lemma keeps_process_exit (A : Type) code : keeps_stores (@process_exit A code).
Proof. intros s. reflexivity. Qed.

Lemma keeps_unmodelled (A : Type) : keeps_stores (@unmodelled A).
Proof. intros s. reflexivity. Qed.

Lemma keeps_get_state : keeps_stores get_state.
Proof. intros s. reflexivity. Qed.

Lemma keeps_console_log line : keeps_stores (console_log line).
Proof. intros s. reflexivity. Qed.

Lemma keeps_console_error line : keeps_stores (console_error line).
Proof. intros s. reflexivity. Qed.

Lemma keeps_invoke (A : Type) r (response : thrown + A) :
  keeps_stores (invoke r response).
Proof. intros s. reflexivity. Qed.

Lemma keeps_createClient apiKey : keeps_stores (createClient apiKey).
Proof. intros s. reflexivity. Qed.

Lemma keeps_bind (A B : Type) (c : M A) (k : A -> M B) :
  keeps_stores c -> (forall a, keeps_stores (k a)) -> keeps_stores (bind c k).
Proof.
  intros Hc Hk s. unfold bind. specialize (Hc s).
  destruct (c s) as [[a|e|code|] s']; cbn [snd] in *; try exact Hc.
  now rewrite Hk.
Qed.

Lemma keeps_withErrorHandling fn :
  keeps_stores fn -> keeps_stores (withErrorHandling fn).
Proof.
  intros Hfn s. unfold withErrorHandling. specialize (Hfn s).
  destruct (fn s) as [[a|e|code|] s']; cbn [snd] in *; exact Hfn.
Qed.

#[local] Hint Resolve keeps_ret keeps_throw keeps_process_exit keeps_unmodelled
  keeps_get_state keeps_console_log keeps_console_error keeps_invoke
  keeps_createClient keeps_withErrorHandling : frame.

Ltac frame :=
  repeat first
    [ progress intros
    | solve [auto with frame]
    | apply keeps_bind
    | apply keeps_withErrorHandling
    | match goal with
      | |- keeps_stores (if ?b then _ else _) => destruct b
      | |- keeps_stores (match ?x with _ => _ end) => destruct x
      end ].

Lemma keeps_when b c : keeps_stores c -> keeps_stores (when b c).
Proof. intros Hc. unfold when. frame. Qed.

Lemma keeps_accessed (A : Type) P (a : access A) : keeps_stores (accessed P a).
Proof. unfold accessed. frame. Qed.

Lemma keeps_parsed P text : keeps_stores (parsed P text).
Proof. unfold parsed. frame. Qed.

Lemma keeps_lift (A : Type) (r : thrown + A) : keeps_stores (lift r).
Proof. unfold lift. frame. Qed.

#[local] Hint Resolve keeps_when keeps_accessed keeps_parsed keeps_lift : frame.

Lemma keeps_readConfig P : keeps_stores (readConfig P).
Proof. unfold readConfig. frame. Qed.

Lemma keeps_readProjectLink P : keeps_stores (readProjectLink P).
Proof. unfold readProjectLink. frame. Qed.

#[local] Hint Resolve keeps_readConfig keeps_readProjectLink : frame.

Lemma keeps_getClient P : keeps_stores (getClient P).
Proof. unfold getClient, resolveApiKeyWithConfig. frame. Qed.

#[local] Hint Resolve keeps_getClient : frame.

Lemma keeps_log_chats P chats : keeps_stores (log_chats P chats).
Proof. induction chats as [|chat chats IH]; cbn [log_chats]; frame. Qed.

#[local] Hint Resolve keeps_log_chats : frame.

Lemma keeps_bind_any (X : Type) (f : state -> X) (A B : Type)
    (c : M A) (k : A -> M B) :
  keeps f c -> (forall a, keeps f (k a)) -> keeps f (bind c k).
Proof.
  intros Hc Hk s. unfold bind. specialize (Hc s).
  destruct (c s) as [[a|e|code|] s']; cbn [snd] in *; try exact Hc.
  now rewrite Hk.
Qed.

Lemma keeps_withErrorHandling_any (X : Type) (f : state -> X) fn :
  (forall line, keeps f (console_error line)) ->
  keeps f fn -> keeps f (withErrorHandling fn).
Proof.
  intros Herr Hfn s. unfold withErrorHandling. specialize (Hfn s).
  destruct (fn s) as [[a|e|code|] s']; cbn [snd] in *; try exact Hfn.
  change (f (snd (console_error (report e) s')) = f s).
  now rewrite Herr.
Qed.

Ltac keeps_tac :=
  repeat first
    [ progress intros
    | solve [intro; reflexivity]
    | apply keeps_bind_any
    | apply keeps_withErrorHandling_any
    | match goal with
      | |- keeps _ (if ?b then _ else _) => destruct b
      | |- keeps _ (match ?x with _ => _ end) => destruct x
      end ].

(* ------------------------------------------------------------------ *)
(** ** More about objects and the two stores *)

Lemma obj_get_replace_same o k v :
  has_key o k = true -> obj_get (obj_replace o k v) k = Some v.
Proof.
  induction o as [|[k' v'] o IH]; [discriminate|].
  rewrite has_key_cons. simpl.
  destruct (jsstring_eqb k' k) eqn:E; simpl; rewrite E; [reflexivity|].
  exact IH.
Qed.

Lemma obj_get_replace_other o k v k0 :
  jsstring_eqb k k0 = false ->
  obj_get (obj_replace o k v) k0 = obj_get o k0.
Proof.
  intros Hne. induction o as [|[k' v'] o IH]; [reflexivity|]. simpl.
  destruct (jsstring_eqb k' k) eqn:E; simpl.
  - apply jsstring_eqb_eq in E. subst. now rewrite Hne.
  - now rewrite IH.
Qed.

Lemma obj_get_insert_other i o k v k0 :
  jsstring_eqb k k0 = false ->
  obj_get (obj_insert_index i o k v) k0 = obj_get o k0.
Proof.
  intros Hne. induction o as [|[k' v'] o IH]; simpl.
  - now rewrite Hne.
  - destruct (array_index k') as [j|]; [destruct (j <=? i)|]; simpl;
      rewrite ?Hne, ?IH; reflexivity.
Qed.

Lemma obj_get_insert_same i o k v :
  has_key o k = false -> obj_get (obj_insert_index i o k v) k = Some v.
Proof.
  induction o as [|[k' v'] o IH]; simpl.
  - now rewrite jsstring_eqb_refl.
  - rewrite has_key_cons. intros H. apply orb_false_iff in H as [Hne Hk].
    destruct (array_index k') as [j|]; [destruct (j <=? i)|]; simpl;
      rewrite ?Hne, ?jsstring_eqb_refl; auto.
Qed.

Lemma obj_get_app_other o k v k0 :
  jsstring_eqb k k0 = false -> obj_get (o ++ [(k, v)]) k0 = obj_get o k0.
Proof.
  intros Hne. induction o as [|[k' v'] o IH]; simpl.
  - now rewrite Hne.
  - now rewrite IH.
Qed.

Lemma obj_get_app_same o k v :
  has_key o k = false -> obj_get (o ++ [(k, v)]) k = Some v.
Proof.
  induction o as [|[k' v'] o IH]; simpl.
  - now rewrite jsstring_eqb_refl.
  - rewrite has_key_cons. intros H. apply orb_false_iff in H as [Hne Hk].
    rewrite Hne. auto.
Qed.

Lemma obj_get_set_same o k v : obj_get (obj_set o k v) k = Some v.
Proof.
  unfold obj_set. destruct (has_key o k) eqn:Hk.
  - now apply obj_get_replace_same.
  - destruct (array_index k);
      [now apply obj_get_insert_same | now apply obj_get_app_same].
Qed.

Lemma obj_get_set_other o k v k0 :
  k0 <> k -> obj_get (obj_set o k v) k0 = obj_get o k0.
Proof.
  intros Hne.
  assert (E : jsstring_eqb k k0 = false).
  { destruct (jsstring_eqb k k0) eqn:E; [|reflexivity].
    apply jsstring_eqb_eq in E. congruence. }
  unfold obj_set. destruct (has_key o k).
  - now apply obj_get_replace_other.
  - destruct (array_index k);
      [now apply obj_get_insert_other | now apply obj_get_app_other].
Qed.

Lemma readConfig_of_file P s v :
  config_file s = Some (JSON_stringify v) -> well_formed v = true ->
  readConfig P s = (Returned v, s).
Proof.
  intros Hfile Hwf. unfold readConfig. run. rewrite Hfile. cbn.
  now rewrite (JSON_parse_stringify v Hwf).
Qed.

Lemma getClient_no_credential P s :
  no_credential P s -> getClient P s = (Threw no_api_key, s).
Proof.
  intros (Henv & config & stored & Hread & Hget & Htruthy).
  apply getClient_throws.
  rewrite (resolve_from_config P s config Henv Hread), Hget.
  destruct stored as [key|]; [now rewrite Htruthy | reflexivity].
Qed.

Lemma logout_runs P s config config' :
  fst (readConfig P s) = Returned config ->
  delete_member config (lit "apiKey") = Accessed config' ->
  logout P s
  = (Returned tt,
     say (lit "Logged out successfully") (snd (writeConfig config' s))).
Proof.
  intros Hread Hdelete. apply readConfig_returns in Hread.
  unfold logout, logout_action, withErrorHandling, bind at 1.
  rewrite Hread, Hdelete. unfold writeConfig. run.
  destruct (config_dir s); reflexivity.
Qed.

Lemma logout_accepted P s config config' :
  fst (readConfig P s) = Returned config ->
  delete_member config (lit "apiKey") = Accessed config' ->
  fst (logout P s) = Returned tt
  /\ config_file (snd (logout P s)) = Some (JSON_stringify config').
Proof.
  intros Hread Hdelete. rewrite (logout_runs P s config config' Hread Hdelete).
  split; [reflexivity|]. unfold say, writeConfig. run.
  destruct (config_dir s); cbn [negb fst snd config_file];
    now rewrite JSON_stringify_well_formed.
Qed.

Lemma readConfig_object_well_formed P s o :
  fst (readConfig P s) = Returned (JObject o) ->
  forall k v, well_formed v = true ->
  well_formed (JObject (obj_set o k v)) = true.
Proof.
  intros Hread k v Hv. apply obj_set_well_formed; [|exact Hv].
  now apply (readConfig_well_formed P s).
Qed.

Lemma login_stored P s c key user o :
  trim (answer P) = c :: key ->
  user_get P (JString (c :: key)) = inr user ->
  fst (readConfig P s) = Returned (JObject o) ->
  readConfig P (snd (login P s))
  = (Returned (JObject (obj_set o (lit "apiKey") (JString (c :: key)))),
     snd (login P s)).
Proof.
  intros Hkey Hget Hread.
  destruct (login_accepted P s c key user o Hkey Hget Hread) as (_ & _ & Hfile).
  apply readConfig_of_file; [exact Hfile|].
  now apply (readConfig_object_well_formed P s).
Qed.

Lemma getClient_project_file P s client s1 :
  getClient P s = (Returned client, s1) -> project_file s1 = project_file s.
Proof.
  intros H. pose proof (keeps_getClient P s) as Hk. rewrite H in Hk.
  now injection Hk.
Qed.

Lemma log_chats_lines P chats : forall s,
  fst (log_chats P chats s) = Returned tt
  /\ stdout (snd (log_chats P chats s)) = stdout s ++ map (chat_line P) chats
  /\ stderr (snd (log_chats P chats s)) = stderr s
  /\ requests (snd (log_chats P chats s)) = requests s.
Proof.
  induction chats as [|chat chats IH]; intros s.
  - cbn. rewrite app_nil_r. repeat split.
  - cbn [log_chats]. unfold bind. cbn [console_log].
    destruct (IH (say (chat_line P chat) s)) as (H1 & H2 & H3 & H4).
    unfold say, console_log in *. cbn [snd] in *.
    destruct (log_chats P chats _) as [o s']. cbn [fst snd] in *.
    rewrite H2, H3, H4. cbn. rewrite <- app_assoc. repeat split. exact H1.
Qed.

Lemma forallb_map_json (A : Type) (f : json -> bool) (g : A -> json) l :
  forallb f (map g l) = forallb (fun x => f (g x)) l.
Proof. induction l as [|x l IH]; simpl; congruence. Qed.

(* ------------------------------------------------------------------ *)
(** ** More about the file collector *)

Lemma excluded_unfold file :
  includes file (lit "node_modules/") || includes file (lit ".git/")
  = excluded file.
Proof. reflexivity. Qed.

Lemma seen_has_cons file seen x :
  seen_has (file :: seen) x = jsstring_eqb x file || seen_has seen x.
Proof. reflexivity. Qed.

Lemma collect_scan_skips P l : forall files seen,
  (forall x, In x l -> excluded x = false -> seen_has seen x = true) ->
  collect_scan P l files seen = inr (files, seen).
Proof.
  induction l as [|file l IH]; intros files seen H; [reflexivity|].
  cbn [collect_scan]. rewrite excluded_unfold.
  assert (Hl : forall x, In x l -> excluded x = false -> seen_has seen x = true)
    by (intros x Hx; apply H; now right).
  destruct (excluded file) eqn:E; [now apply IH|].
  rewrite (H file (or_introl eq_refl) E). now apply IH.
Qed.

Lemma collect_scan_seen P found : forall files seen files' seen',
  collect_scan P found files seen = inr (files', seen') ->
  (forall x, seen_has seen x = true -> seen_has seen' x = true)
  /\ (forall x, In x found -> excluded x = false -> seen_has seen' x = true).
Proof.
  induction found as [|file found IH]; intros files seen files' seen' H.
  - injection H as <- <-. split; [auto | intros x []].
  - cbn [collect_scan] in H. rewrite excluded_unfold in H.
    destruct (excluded file) eqn:E.
    + apply IH in H as [Hmono Hall]. split; [exact Hmono|].
      intros x [<-|Hx] Hex; [congruence | now apply Hall].
    + destruct (seen_has seen file) eqn:Hseen.
      * apply IH in H as [Hmono Hall]. split; [exact Hmono|].
        intros x [<-|Hx] Hex; [now apply Hmono | now apply Hall].
      * destruct (read_text P file) as [e|text]; [discriminate|].
        apply IH in H as [Hmono Hall]. split.
        -- intros x Hx. apply Hmono. rewrite seen_has_cons, Hx.
           apply orb_true_r.
        -- intros x [<-|Hx] Hex; [|now apply Hall].
           apply Hmono. now rewrite seen_has_cons, jsstring_eqb_refl.
Qed.

Lemma collect_scan_succeeds P found : forall files seen,
  (forall file, In file found -> excluded file = false ->
                exists text, read_text P file = inr text) ->
  exists r, collect_scan P found files seen = inr r.
Proof.
  induction found as [|file found IH]; intros files seen Hread.
  - eexists. reflexivity.
  - assert (Hrest : forall f, In f found -> excluded f = false ->
                              exists text, read_text P f = inr text)
      by (intros f Hf; apply Hread; now right).
    cbn [collect_scan]. rewrite excluded_unfold.
    destruct (excluded file) eqn:E; [now apply IH|].
    destruct (seen_has seen file); [now apply IH|].
    destruct (Hread file (or_introl eq_refl) E) as [text ->]. now apply IH.
Qed.

Lemma collect_scan_fails P found : forall files seen e,
  collect_scan P found files seen = inl e ->
  exists file, In file found /\ excluded file = false
               /\ read_text P file = inl e.
Proof.
  induction found as [|file found IH]; intros files seen e H; [discriminate|].
  cbn [collect_scan] in H. rewrite excluded_unfold in H.
  assert (Hrest : forall files seen,
             collect_scan P found files seen = inl e ->
             exists f, In f (file :: found) /\ excluded f = false
                       /\ read_text P f = inl e).
  { intros fs sn Hfs. destruct (IH fs sn e Hfs) as (f & Hin & Hf).
    exists f. split; [now right | exact Hf]. }
  destruct (excluded file) eqn:E; [now apply Hrest in H|].
  destruct (seen_has seen file); [now apply Hrest in H|].
  destruct (read_text P file) as [e'|text] eqn:Hread; [|now apply Hrest in H].
  injection H as ->. exists file. repeat split; [now left | exact E | exact Hread].
Qed.

Lemma collectFiles_all_excluded P patterns :
  all_excluded P patterns -> collectFiles P patterns = inr [].
Proof.
  intros H. unfold collectFiles. rewrite collect_patterns_scan.
  rewrite collect_scan_skips; [reflexivity|].
  intros x Hx Hex. apply H in Hx. congruence.
Qed.

(* ------------------------------------------------------------------ *)
(** ** Without a credential *)



(* ------------------------------------------------------------------ *)
(** ** [login], then *)

(** X2. After a [login] whose key the service accepted, and with no key
    in the environment, [getClient] constructs its client with the key
    that was typed, trimmed. *)
Theorem login_then_getClient P s key user o :
  trim (answer P) = key -> nonempty key = true ->
  user_get P (JString key) = inr user ->
  fst (readConfig P s) = Returned (JObject o) ->
  env_key_unset P ->
  getClient P (snd (login P s))
  = (Returned (JString key), add_client (JString key) (snd (login P s))).
Proof.
  intros Hkey Hne Hget Hread Henv.
  destruct key as [|c key]; [discriminate|].
  pose proof (login_stored P s c key user o Hkey Hget Hread) as Hstored.
  apply getClient_returns.
  rewrite (resolve_from_config P _ _ Henv (f_equal fst Hstored)).
  cbn [get_member]. now rewrite obj_get_set_same.
Qed.

(** X2 on a new machine, the key typed between blanks. *)
Lemma login_then_getClient_witness :
  getClient (with_answer (lit " v1:abc ") quiet_platform)
    (snd (login (with_answer (lit " v1:abc ") quiet_platform) fresh_state))
  = (Returned (JString (lit "v1:abc")),
     add_client (JString (lit "v1:abc"))
       (snd (login (with_answer (lit " v1:abc ") quiet_platform)
               fresh_state))).
Proof.
  apply (login_then_getClient (with_answer (lit " v1:abc ") quiet_platform)
           fresh_state (lit "v1:abc") (JObject []) []);
    [reflexivity | reflexivity | reflexivity | reflexivity | left; reflexivity].
Defined.



(** X4. [login], then [logout], leaves no credential: with no key in the
    environment, [logout] succeeds, [getClient] then throws the
    no-API-key error, and [whoami] exits with code 1 on that line. *)
Theorem login_logout_no_credential P s key user o :
  trim (answer P) = key -> nonempty key = true ->
  user_get P (JString key) = inr user ->
  fst (readConfig P s) = Returned (JObject o) ->
  env_key_unset P ->
  fst (logout P (snd (login P s))) = Returned tt
  /\ getClient P (snd (logout P (snd (login P s))))
     = (Threw no_api_key, snd (logout P (snd (login P s))))
  /\ (forall json,
         whoami P json (snd (logout P (snd (login P s))))
         = (Exited 1,
            say_error no_api_key_line (snd (logout P (snd (login P s)))))).
Proof.
  intros Hkey Hne Hget Hread Henv.
  destruct key as [|c key]; [discriminate|].
  pose proof (login_stored P s c key user o Hkey Hget Hread) as Hstored.
  set (s1 := snd (login P s)) in *.
  set (config' := JObject (obj_delete (obj_set o (lit "apiKey")
                                         (JString (c :: key))) (lit "apiKey"))).
  destruct (logout_accepted P s1 _ config' (f_equal fst Hstored) eq_refl)
    as [Hout Hfile].
  assert (Hwf : well_formed config' = true).
  { apply obj_delete_well_formed.
    now apply (readConfig_object_well_formed P s). }
  pose proof (readConfig_of_file P _ _ Hfile Hwf) as Hread2.
  assert (Hnone : no_credential P (snd (logout P s1))).
  { split; [exact Henv|]. exists config', None. rewrite Hread2.
    repeat split. unfold config'. cbn [get_member].
    now rewrite obj_get_delete. }
  split; [exact Hout|]. split.
  - now apply getClient_no_credential.
  - intros json. unfold whoami, whoami_action, withErrorHandling, bind.
    now rewrite (getClient_no_credential P _ Hnone).
Qed.

(** X4 on a new machine. *)
Lemma login_logout_no_credential_witness :
  getClient (with_answer (lit "v1:abc") quiet_platform)
    (snd (logout (with_answer (lit "v1:abc") quiet_platform)
            (snd (login (with_answer (lit "v1:abc") quiet_platform)
                    fresh_state))))
  = (Threw no_api_key,
     snd (logout (with_answer (lit "v1:abc") quiet_platform)
            (snd (login (with_answer (lit "v1:abc") quiet_platform)
                    fresh_state)))).
Proof.
  apply (login_logout_no_credential
           (with_answer (lit "v1:abc") quiet_platform) fresh_state
           (lit "v1:abc") (JObject []) []);
    [reflexivity | reflexivity | reflexivity | reflexivity | left; reflexivity].
Defined.

(** X5. A config file that is not JSON stops [logout] and [login]:
    both exit with code 1, [logout] changing nothing but the error
    stream, [login] leaving every file as it was even when the service
    accepted the key; and without a key in the environment [getClient]
    throws the SyntaxError and constructs no client. *)
Theorem corrupt_config_blocks P s text :
  config_file s = Some text -> JSON_parse text = SyntaxError ->
  (fst (logout P s) = Exited 1
   /\ snd (logout P s) = say_error (report (syntax_error P text)) s)
  /\ (fst (login P s) = Exited 1 /\ stores (snd (login P s)) = stores s)
  /\ (env_key_unset P ->
      getClient P s = (Threw (syntax_error P text), s)).
Proof.
  intros Hfile Hparse.
  assert (Hread : forall s1, config_file s1 = Some text ->
                  readConfig P s1 = (Threw (syntax_error P text), s1)).
  { intros s1 H1. unfold readConfig. run. rewrite H1. cbn. now rewrite Hparse. }
  split; [|split].
  - unfold logout, logout_action, withErrorHandling, bind.
    rewrite (Hread s Hfile). split; reflexivity.
  - unfold login, login_action. run.
    destruct (trim (answer P)) as [|c key]; cbn [nonempty negb]; run.
    + split; reflexivity.
    + destruct (user_get P (JString (c :: key))) as [e|user].
      * split; reflexivity.
      * fold (readConfig P). rewrite Hread by exact Hfile. split; reflexivity.
  - intros Henv. unfold getClient, resolveApiKeyWithConfig, bind.
    destruct Henv as [E|E]; rewrite E, (Hread s Hfile); reflexivity.
Qed.

(** X5 with a good key typed over a broken file. *)
Lemma corrupt_config_blocks_witness :
  fst (login (with_answer (lit "v1:abc") quiet_platform) corrupt_state)
  = Exited 1
  /\ stores (snd (login (with_answer (lit "v1:abc") quiet_platform)
                    corrupt_state))
     = stores corrupt_state.
Proof.
  apply (proj1 (proj2 (corrupt_config_blocks
                         (with_answer (lit "v1:abc") quiet_platform)
                         corrupt_state (lit "{apiKey}") eq_refl eq_refl))).
Defined.

(* ------------------------------------------------------------------ *)
(** ** The error wrapper *)

(** X6. No exception leaves [withErrorHandling]: a handler that throws
    ends in one line on the error stream and exit code 1, and a handler
    that does not throw runs as if it were not wrapped. *)
Theorem errors_are_handled fn s :
  (forall e, fst (withErrorHandling fn s) <> Threw e)
  /\ (forall e s', fn s = (Threw e, s') ->
        withErrorHandling fn s = (Exited 1, say_error (report e) s'))
  /\ ((forall e, fst (fn s) <> Threw e) -> withErrorHandling fn s = fn s).
Proof.
  unfold withErrorHandling.
  destruct (fn s) as [[a|e0|code|] s'] eqn:Hfn; cbn [fst].
  - split; [discriminate|]. split; [discriminate | reflexivity].
  - split; [discriminate|]. split.
    + intros e s'' H. injection H as -> ->. reflexivity.
    + intros H. now contradiction (H e0).
  - split; [discriminate|]. split; [discriminate | reflexivity].
  - split; [discriminate|]. split; [discriminate | reflexivity].
Qed.

(** X6 at a handler that throws at once. *)
Lemma errors_are_handled_witness :
  withErrorHandling (throw unexpected_stream) fresh_state
  = (Exited 1, say_error (report unexpected_stream) fresh_state).
Proof.
  apply (proj1 (proj2 (errors_are_handled (throw unexpected_stream)
                         fresh_state)) unexpected_stream fresh_state).
  reflexivity.
Defined.

(** X7. The tag decides the line: an error tagged unauthorized, rate
    limited or payload too large is reported by its fixed guidance
    whatever message it carries, and an error with neither [error] tag
    nor nested message by its own [message]. *)
Theorem report_by_tag e :
  (type_is e "unauthorized_error" = true ->
   report e = lit "Not authenticated. Run 'v0 login' or set V0_API_KEY.")
  /\ (type_is e "too_many_requests_error" = true ->
      report e = lit "Rate limited. Try again shortly.")
  /\ (type_is e "payload_too_large_error" = true ->
      report e
      = lit "Payload too large. Try reducing the number or size of files.")
  /\ (error_type e = None ->
      forall m, thrown_message e = Some m -> error_message e = None ->
      report e = m).
Proof.
  repeat split.
  - intros H. unfold report. now rewrite H.
  - intros H. unfold report.
    rewrite (type_is_other e _ "unauthorized_error" H eq_refl),
      (type_is_other e _ "not_found_error" H eq_refl). now rewrite H.
  - intros H. unfold report.
    rewrite (type_is_other e _ "unauthorized_error" H eq_refl),
      (type_is_other e _ "not_found_error" H eq_refl),
      (type_is_other e _ "too_many_requests_error" H eq_refl). now rewrite H.
  - intros Ht m Hm Hn. unfold report, type_is. now rewrite Ht, Hn, Hm.
Qed.

(** X7 at the error of a rejected key and at [new Error]. *)
Lemma report_by_tag_witness :
  report unauthorized
  = lit "Not authenticated. Run 'v0 login' or set V0_API_KEY."
  /\ report no_api_key = no_api_key_line.
Proof.
  split.
  - apply (proj1 (report_by_tag unauthorized)). reflexivity.
  - apply (proj2 (proj2 (proj2 (report_by_tag no_api_key))));
      reflexivity.
Defined.

(* ------------------------------------------------------------------ *)
(** ** [collectFiles], further *)

(** X8. [collectFiles] reads no excluded path: it returns a list as
    soon as every scanned path that is not excluded can be read,
    whatever reading the excluded ones would give; and when it throws,
    what it throws is the error of reading one scanned path that is not
    excluded. *)
Theorem collectFiles_reads P patterns :
  ((forall file, In file (flat_map (glob_scan P) patterns) ->
                 excluded file = false ->
                 exists text, read_text P file = inr text) ->
   exists files, collectFiles P patterns = inr files)
  /\ (forall e, collectFiles P patterns = inl e ->
      exists file, In file (flat_map (glob_scan P) patterns)
                   /\ excluded file = false /\ read_text P file = inl e).
Proof.
  unfold collectFiles. rewrite collect_patterns_scan. split.
  - intros Hread.
    destruct (collect_scan_succeeds P _ [] [] Hread) as [[files seen] ->].
    eauto.
  - intros e H.
    destruct (collect_scan P _ [] []) as [e'|[files seen]] eqn:Hscan;
      [|discriminate].
    injection H as ->. now apply collect_scan_fails in Hscan.
Qed.

(** X8 on a tree whose excluded files cannot be read, and on one where a
    source file cannot. *)
Lemma collectFiles_reads_witness :
  (exists files, collectFiles guarded_tree [lit "**/*.ts"] = inr files)
  /\ (exists file,
         In file (flat_map (glob_scan broken_tree) [lit "**/*.ts"])
         /\ excluded file = false
         /\ read_text broken_tree file = inl (Error (lit "EACCES"))).
Proof.
  split.
  - apply (proj1 (collectFiles_reads guarded_tree [lit "**/*.ts"])).
    intros file Hin Hex. cbn [guarded_tree with_read_text read_text].
    rewrite Hex. exists []. reflexivity.
  - apply (proj2 (collectFiles_reads broken_tree [lit "**/*.ts"])
             (Error (lit "EACCES"))).
    reflexivity.
Defined.

(** X9. Giving every pattern a second time changes nothing:
    [collectFiles] returns, or throws, the same. *)
Theorem collectFiles_repeated_patterns P patterns :
  collectFiles P (patterns ++ patterns) = collectFiles P patterns.
Proof.
  unfold collectFiles. rewrite !collect_patterns_scan, flat_map_app.
  rewrite collect_scan_app.
  destruct (collect_scan P (flat_map (glob_scan P) patterns) [] [])
    as [e|[files seen]] eqn:H; [reflexivity|].
  apply collect_scan_seen in H as [_ Hall].
  now rewrite collect_scan_skips.
Qed.

(** X10. When the patterns, at least one, match nothing but excluded
    paths, [chat init] prints [No files found matching patterns] and
    exits with code 1, nothing else done. *)
Theorem chat_init_only_excluded P pattern patterns opts s :
  all_excluded P (pattern :: patterns) ->
  chat_init P (pattern :: patterns) opts s
  = (Exited 1, say_error (lit "No files found matching patterns") s).
Proof.
  intros H. unfold chat_init, chat_init_action.
  rewrite (collectFiles_all_excluded P _ H). reflexivity.
Qed.

(** X10 on a tree with nothing but a dependency in it. *)
Lemma chat_init_only_excluded_witness :
  chat_init vendor_tree [lit "**/*.js"] plain_init_opts fresh_state
  = (Exited 1,
     say_error (lit "No files found matching patterns") fresh_state).
Proof.
  apply (chat_init_only_excluded vendor_tree (lit "**/*.js") []
           plain_init_opts fresh_state).
  intros file Hin. cbn in Hin. destruct Hin as [<-|[]]. reflexivity.
Defined.

(* ------------------------------------------------------------------ *)
(** ** [chat init], once it has files and a client *)

(** X11. Under [--no-project] the marker file is not consulted:
    whatever it holds, the one remote operation of a [chat init] without
    [--message] is the initialization with the collected files and no
    project id, and the three lines printed are the chat id, the number
    of files and the URL. *)
Theorem chat_init_no_project P patterns opts s file files client s1 result :
  collectFiles P patterns = inr (file :: files) ->
  getClient P s = (Returned client, s1) ->
  init_project opts = false ->
  init_message opts = None ->
  init_json opts = false ->
  chats_init P client (file :: files) None = inr (ChatDetail result) ->
  fst (chat_init P patterns opts s) = Returned tt
  /\ requests (snd (chat_init P patterns opts s))
     = requests s1 ++ [ChatsInit client (file :: files) None]
  /\ stdout (snd (chat_init P patterns opts s))
     = stdout s1
         ++ [lit "Chat initialized: " ++ template (obj_get result (lit "id"));
             lit "Files attached: " ++ length_string (file :: files);
             lit "https://v0.dev/chat/"
               ++ template (obj_get result (lit "id"))].
Proof.
  intros Hfiles Hclient Hproj Hmsg Hjson Hinit.
  unfold chat_init, chat_init_action. rewrite Hfiles.
  destruct patterns as [|p ps]; [discriminate|].
  run. rewrite Hclient, Hproj. cbn [truthy]. rewrite Hinit, Hmsg, Hjson.
  cbn [fst snd requests stdout]. rewrite <- !app_assoc. repeat split.
Qed.

(** X11 in a linked directory. *)
Lemma chat_init_no_project_witness :
  requests
    (snd (chat_init half_way_platform [lit "src/*.ts"]
            {| init_message := None; init_project := false;
               init_json := false |}
            linked_state))
  = requests (add_client (JString (lit "key")) linked_state)
      ++ [ChatsInit (JString (lit "key"))
            [{| name := lit "src/index.ts"; content := [] |}] None].
Proof.
  apply (proj1 (proj2 (chat_init_no_project half_way_platform
                         [lit "src/*.ts"]
                         {| init_message := None; init_project := false;
                            init_json := false |}
                         linked_state
                         {| name := lit "src/index.ts"; content := [] |} []
                         (JString (lit "key"))
                         (add_client (JString (lit "key")) linked_state)
                         [(lit "id", JString (lit "c1"))]
                         eq_refl eq_refl eq_refl eq_refl eq_refl eq_refl))).
Defined.

(** X12. In a directory that [link] has written its marker in, a
    [chat init] without [--no-project] sends the linked project id with
    the files. *)
Theorem chat_init_linked
    P patterns opts s file files client s1 projectId result :
  collectFiles P patterns = inr (file :: files) ->
  getClient P s = (Returned client, s1) ->
  init_project opts = true ->
  nonempty projectId = true ->
  project_file s
  = Some (JSON_stringify (JObject [(lit "projectId", JString projectId)])) ->
  init_message opts = None ->
  chats_init P client (file :: files) (Some (JString projectId))
  = inr (ChatDetail result) ->
  fst (chat_init P patterns opts s) = Returned tt
  /\ requests (snd (chat_init P patterns opts s))
     = requests s1
         ++ [ChatsInit client (file :: files) (Some (JString projectId))].
Proof.
  intros Hfiles Hclient Hproj Hne Hlink Hmsg Hinit.
  destruct projectId as [|c p]; [discriminate|].
  rewrite <- (getClient_project_file P s client s1 Hclient) in Hlink.
  unfold chat_init, chat_init_action, readProjectLink. rewrite Hfiles.
  destruct patterns as [|p0 ps]; [discriminate|].
  run. rewrite Hclient, Hproj. cbn [project_file]. rewrite Hlink.
  rewrite JSON_parse_stringify by reflexivity.
  cbn [truthy get_member obj_get]. rewrite jsstring_eqb_refl.
  cbn [truthy nonempty]. rewrite Hinit, Hmsg.
  destruct (init_json opts); cbn [fst snd requests]; split; reflexivity.
Qed.

(** X12 in the directory linked to [proj_123]. *)
Lemma chat_init_linked_witness :
  requests
    (snd (chat_init half_way_platform [lit "src/*.ts"] plain_init_opts
            linked_state))
  = requests (add_client (JString (lit "key")) linked_state)
      ++ [ChatsInit (JString (lit "key"))
            [{| name := lit "src/index.ts"; content := [] |}]
            (Some (JString (lit "proj_123")))].
Proof.
  apply (proj2 (chat_init_linked half_way_platform [lit "src/*.ts"]
                  plain_init_opts linked_state
                  {| name := lit "src/index.ts"; content := [] |} []
                  (JString (lit "key"))
                  (add_client (JString (lit "key")) linked_state)
                  (lit "proj_123") [(lit "id", JString (lit "c1"))]
                  eq_refl eq_refl eq_refl eq_refl eq_refl eq_refl eq_refl)).
Defined.



(* ------------------------------------------------------------------ *)
(** ** [link], [unlink], [chat open] *)

(** X14. [link] writes the marker only for a project the service
    knows: when the lookup throws, the command exits with code 1 and the
    marker file is as it was; when it returns, the command succeeds and
    [readProjectLink] gives the project id just linked. *)
Theorem link_guarded P projectId s client s1 :
  getClient P s = (Returned client, s1) ->
  (forall e, projects_get P client projectId = inl e ->
     fst (link P projectId s) = Exited 1
     /\ project_file (snd (link P projectId s)) = project_file s)
  /\ (forall project, projects_get P client projectId = inr project ->
      fst (link P projectId s) = Returned tt
      /\ readProjectLink P (snd (link P projectId s))
         = (Returned (JObject [(lit "projectId", JString projectId)]),
            snd (link P projectId s))).
Proof.
  intros Hclient.
  pose proof (getClient_project_file P s client s1 Hclient) as Hfile.
  split.
  - intros e Hget. unfold link, link_action. run. rewrite Hclient, Hget.
    split; [reflexivity | exact Hfile].
  - intros project Hget. unfold link, link_action, writeProjectLink.
    run. rewrite Hclient, Hget. split; [reflexivity|].
    unfold readProjectLink. run. cbn [snd project_file].
    now rewrite JSON_stringify_well_formed, JSON_parse_stringify.
Qed.

(** X14 at a project the service does not know, in a linked
    directory. *)
Lemma link_guarded_witness :
  fst (link no_project_platform (lit "proj_999") linked_state) = Exited 1
  /\ project_file (snd (link no_project_platform (lit "proj_999")
                          linked_state))
     = project_file linked_state.
Proof.
  apply (proj1 (link_guarded no_project_platform (lit "proj_999")
                  linked_state (JString (lit "key"))
                  (add_client (JString (lit "key")) linked_state) eq_refl)
           (not_found (lit "Project not found"))).
  reflexivity.
Defined.




(* ------------------------------------------------------------------ *)
(** ** [whoami] and [chat list] *)

(** X17. What [whoami --json] prints is the user as the service returned
    it: the one line printed parses back to that value. *)
Theorem whoami_json_round_trip P s client s1 user :
  getClient P s = (Returned client, s1) ->
  user_get P client = inr user ->
  well_formed user = true ->
  fst (whoami P true s) = Returned tt
  /\ exists line,
       stdout (snd (whoami P true s)) = stdout s1 ++ [line]
       /\ JSON_parse line = Parsed user.
Proof.
  intros Hclient Hget Hwf. unfold whoami, whoami_action. run.
  rewrite Hclient, Hget. split; [reflexivity|].
  exists (JSON_stringify user). split; [reflexivity|].
  now apply JSON_parse_stringify.
Qed.

(** X17 with the key in the environment. *)
Lemma whoami_json_round_trip_witness :
  fst (whoami keyed_platform true fresh_state) = Returned tt
  /\ exists line,
       stdout (snd (whoami keyed_platform true fresh_state))
       = stdout (add_client (JString (lit "key")) fresh_state) ++ [line]
       /\ JSON_parse line = Parsed (JObject []).
Proof.
  apply (whoami_json_round_trip keyed_platform fresh_state
           (JString (lit "key"))
           (add_client (JString (lit "key")) fresh_state) (JObject []));
    reflexivity.
Defined.

(** X18. A user without a name, or with [null] for one, is shown as
    [Name: N/A], after the lines of id and email. *)
Theorem whoami_name_missing P s client s1 o :
  getClient P s = (Returned client, s1) ->
  user_get P client = inr (JObject o) ->
  obj_get o (lit "name") = None \/ obj_get o (lit "name") = Some JNull ->
  fst (whoami P false s) = Returned tt
  /\ stdout (snd (whoami P false s))
     = stdout s1
         ++ [lit "ID: " ++ template (obj_get o (lit "id"));
             lit "Email: " ++ template (obj_get o (lit "email"));
             lit "Name: N/A"].
Proof.
  intros Hclient Hget Hname. unfold whoami, whoami_action. run.
  rewrite Hclient, Hget. cbn [get_member].
  destruct Hname as [-> | ->]; cbn [fst snd stdout];
    rewrite <- !app_assoc; split; reflexivity.
Qed.

(** X18 with a user the service gives no member of. *)
Lemma whoami_name_missing_witness :
  fst (whoami keyed_platform false fresh_state) = Returned tt
  /\ stdout (snd (whoami keyed_platform false fresh_state))
     = stdout (add_client (JString (lit "key")) fresh_state)
         ++ [lit "ID: " ++ template (obj_get [] (lit "id"));
             lit "Email: " ++ template (obj_get [] (lit "email"));
             lit "Name: N/A"].
Proof.
  apply (whoami_name_missing keyed_platform fresh_state
           (JString (lit "key"))
           (add_client (JString (lit "key")) fresh_state) []);
    [reflexivity | reflexivity | left; reflexivity].
Defined.

(** X19. Without [--json], [chat list] prints one line per chat, in the
    order of the service, after the one remote operation it invokes. *)
Theorem chat_list_lines P opts s client s1 chat chats :
  getClient P s = (Returned client, s1) ->
  chats_find P client (find_query_of opts) = inr (Some (chat :: chats)) ->
  list_json opts = false ->
  fst (chat_list P opts s) = Returned tt
  /\ stdout (snd (chat_list P opts s))
     = stdout s1 ++ map (chat_line P) (chat :: chats)
  /\ requests (snd (chat_list P opts s))
     = requests s1 ++ [ChatsFind client (find_query_of opts)].
Proof.
  intros Hclient Hfind Hjson.
  unfold chat_list, chat_list_action, withErrorHandling, bind.
  rewrite Hclient, Hfind, Hjson. cbn [invoke].
  match goal with
  | |- context [log_chats P ?l ?st] =>
      destruct (log_chats_lines P l st) as (H1 & H2 & _ & H4);
      destruct (log_chats P l st) as [o s']
  end.
  cbn [fst snd] in *. subst o. cbn [fst snd]. rewrite H2, H4. repeat split.
Qed.

(** X19 at a service with two chats. *)
Lemma chat_list_lines_witness :
  stdout (snd (chat_list chatty_platform plain_list_opts fresh_state))
  = stdout (add_client (JString (lit "key")) fresh_state)
      ++ map (chat_line chatty_platform) two_chats.
Proof.
  apply (proj1 (proj2 (chat_list_lines chatty_platform plain_list_opts
                         fresh_state (JString (lit "key"))
                         (add_client (JString (lit "key")) fresh_state)
                         _ _ eq_refl eq_refl eq_refl))).
Defined.

(** X20. What [chat list --json] prints is the list of chats as the
    service returned it: the one line printed parses back to that list,
    the empty list when the response carries none. *)
Theorem chat_list_json_round_trip P opts s client s1 data :
  getClient P s = (Returned client, s1) ->
  chats_find P client (find_query_of opts) = inr data ->
  list_json opts = true ->
  forallb (fun chat => well_formed (JObject chat))
    (match data with Some chats => chats | None => [] end) = true ->
  fst (chat_list P opts s) = Returned tt
  /\ exists line,
       stdout (snd (chat_list P opts s)) = stdout s1 ++ [line]
       /\ JSON_parse line
          = Parsed (JArray (map JObject
                              (match data with
                               | Some chats => chats
                               | None => []
                               end))).
Proof.
  intros Hclient Hfind Hjson Hwf.
  unfold chat_list, chat_list_action, withErrorHandling, bind.
  rewrite Hclient, Hfind, Hjson. split; [reflexivity|].
  eexists. split; [reflexivity|]. apply JSON_parse_stringify.
  cbn [well_formed]. now rewrite forallb_map_json.
Qed.

(** X20 at a service with two chats. *)
Lemma chat_list_json_round_trip_witness :
  fst (chat_list chatty_platform json_list_opts fresh_state) = Returned tt
  /\ exists line,
       stdout (snd (chat_list chatty_platform json_list_opts fresh_state))
       = stdout (add_client (JString (lit "key")) fresh_state) ++ [line]
       /\ JSON_parse line = Parsed (JArray (map JObject two_chats)).
Proof.
  apply (chat_list_json_round_trip chatty_platform json_list_opts
           fresh_state (JString (lit "key"))
           (add_client (JString (lit "key")) fresh_state) (Some two_chats));
    reflexivity.
Defined.

(* ------------------------------------------------------------------ *)
(** ** The other resolver, and what every handler leaves alone *)

(** X21. [resolveApiKey] never looks at the config: with a non-empty
    key in the environment it returns what [resolveApiKeyWithConfig]
    returns, and without one it throws the no-API-key error even when a
    key is stored. *)
Theorem resolveApiKey_ignores_config P s :
  (forall envKey, env_V0_API_KEY P = Some envKey -> nonempty envKey = true ->
     resolveApiKey P s = resolveApiKeyWithConfig P s)
  /\ (env_key_unset P -> resolveApiKey P s = (Threw no_api_key, s)).
Proof.
  split.
  - intros [|c k] H Hne; [discriminate|].
    unfold resolveApiKey, resolveApiKeyWithConfig. now rewrite H.
  - intros [H|H]; unfold resolveApiKey; now rewrite H.
Qed.

(** X21 with a key stored and none in the environment. *)
Lemma resolveApiKey_ignores_config_witness :
  resolveApiKey quiet_platform (logged_in (lit "stored"))
  = (Threw no_api_key, logged_in (lit "stored")).
Proof.
  apply (proj2 (resolveApiKey_ignores_config quiet_platform
                  (logged_in (lit "stored")))).
  left. reflexivity.
Defined.

(** X22. [whoami], [chat list], [chat delete], [chat init] and
    [chat open] write no file: however they end, the config directory,
    the config file and the marker file are as they were. *)
Theorem handlers_keep_stores P launch :
  keeps_stores (whoami P true) /\ keeps_stores (whoami P false)
  /\ (forall opts, keeps_stores (chat_list P opts))
  /\ (forall chatId, keeps_stores (chat_delete P chatId))
  /\ (forall patterns opts, keeps_stores (chat_init P patterns opts))
  /\ (forall chatId browser, keeps_stores (chat_open launch chatId browser)).
Proof.
  repeat split; intros;
    unfold whoami, whoami_action, chat_list, chat_list_action, chat_delete,
      chat_delete_action, chat_init, chat_init_action, chat_open,
      chat_open_action;
    cbv zeta; frame.
Qed.

(** X23. The two stores are apart: however they end, [login] and
    [logout] leave the marker file as it was, and [link] and [unlink]
    the config directory and file. *)
Theorem stores_are_separate P :
  keeps project_file (login P) /\ keeps project_file (logout P)
  /\ (forall projectId, keeps config_store (link P projectId))
  /\ keeps config_store unlink.
Proof.
  repeat split; intros;
    unfold login, login_action, logout, logout_action, link, link_action,
      unlink, unlink_action, readConfig, writeConfig, writeProjectLink,
      removeProjectLink, getClient, resolveApiKeyWithConfig, readConfig,
      parsed, accessed, when;
    cbv zeta; keeps_tac.
Qed.

(* ------------------------------------------------------------------ *)
(** ** [chat init --json] *)

Lemma spread_from acc o :
  canonical_order (acc ++ o) = true ->
  fold_left (fun acc kv => obj_set acc (fst kv) (snd kv)) o acc = acc ++ o.
Proof.
  revert acc. induction o as [|[k v] o IH]; intros acc Hc; cbn [fold_left].
  - now rewrite app_nil_r.
  - cbn [fst snd].
    change (acc ++ (k, v) :: o) with (acc ++ [(k, v)] ++ o) in *.
    rewrite app_assoc in *.
    rewrite obj_set_last by (eapply canonical_order_prefix; exact Hc).
    now apply IH.
Qed.

Lemma spread_canonical o : canonical_order o = true -> spread o = o.
Proof. intros Hc. unfold spread. now rewrite (spread_from [] o Hc). Qed.

(** X24. What [chat init --json] prints is the chat as the service
    returned it, with the URL added: the one line printed parses back to
    an object whose [url] is the URL of the chat and whose other
    members are those of the result. *)
Theorem chat_init_json_output
    P patterns opts s file files client s1 result :
  collectFiles P patterns = inr (file :: files) ->
  getClient P s = (Returned client, s1) ->
  init_project opts = false ->
  init_message opts = None ->
  init_json opts = true ->
  chats_init P client (file :: files) None = inr (ChatDetail result) ->
  well_formed (JObject result) = true ->
  fst (chat_init P patterns opts s) = Returned tt
  /\ exists line o,
       stdout (snd (chat_init P patterns opts s)) = stdout s1 ++ [line]
       /\ JSON_parse line = Parsed (JObject o)
       /\ obj_get o (lit "url")
          = Some (JString (lit "https://v0.dev/chat/"
                             ++ template (obj_get result (lit "id"))))
       /\ (forall k, k <> lit "url" -> obj_get o k = obj_get result k).
Proof.
  intros Hfiles Hclient Hproj Hmsg Hjson Hinit Hwf.
  unfold chat_init, chat_init_action. rewrite Hfiles.
  destruct patterns as [|p ps]; [discriminate|].
  run. rewrite Hclient, Hproj. cbn [truthy]. rewrite Hinit, Hmsg, Hjson.
  split; [reflexivity|].
  pose proof Hwf as Hc. cbn [well_formed] in Hc.
  apply andb_true_iff in Hc as [Hc _].
  rewrite (spread_canonical result Hc).
  eexists. eexists. split; [reflexivity|]. split; [|split].
  - apply JSON_parse_stringify. now apply obj_set_well_formed.
  - apply obj_get_set_same.
  - intros k Hk. now apply obj_get_set_other.
Qed.

(** X24 at a service that creates the chat [c1]. *)
Lemma chat_init_json_output_witness :
  fst (chat_init half_way_platform [lit "src/*.ts"]
         {| init_message := None; init_project := false; init_json := true |}
         fresh_state)
  = Returned tt.
Proof.
  apply (proj1 (chat_init_json_output half_way_platform [lit "src/*.ts"]
                  {| init_message := None; init_project := false;
                     init_json := true |}
                  fresh_state
                  {| name := lit "src/index.ts"; content := [] |} []
                  (JString (lit "key"))
                  (add_client (JString (lit "key")) fresh_state)
                  [(lit "id", JString (lit "c1"))]
                  eq_refl eq_refl eq_refl eq_refl eq_refl eq_refl eq_refl)).
Defined.
